(** * meshexp: a shallow embedding of the MeSH tree index and its queries

    The development follows [meshexp.go]: the line parser
    [treeReferenceFromString], the loader [MeSHTreeFromReader] with the
    insertion routine [addChild], and the queries [Explode], [Depth],
    [Contains], [Parents] and [Reference] with the tree walkers [At] and
    [Terms].

    Modelling conventions.
    - A Go [string] is a sequence of bytes: [string] of the Standard Library.
    - A Go [map] is a [gmap]; a map is a reference in Go, so the assignment
      [n.Children[k] = ...] made by [addChild] through a copy of a node is seen
      by every holder of that node.  The embedding is functional: [addChild]
      returns the node with its updated children and the caller stores it back
      under the same key.
    - [range] over a map visits the entries in an order that Go leaves
      unspecified; the embedding visits them in the order of [map_to_list].
      Statements about the order of headings inside one level of the tree are
      therefore statements about that order.
    - A run-time panic (index out of range, or the explicit [panic] of
      [Reference]) is the outcome [Panic]; a returned [error] is [Err]. *)

From Stdlib Require Import ZArith String Ascii List.
From stdpp Require Import gmap strings list fin_maps.

Set Warnings "-register-all".
Local Open Scope Z_scope.
Local Open Scope string_scope.
Local Open Scope list_scope.
Local Open Scope stdpp_scope.

(** ** Outcomes *)

(** The message of a Go [error] value. *)
Definition error := string.

Inductive result (A : Type) : Type :=
| Ok (a : A)
| Err (e : error)
| Panic (msg : string).

Arguments Ok {A} a.
Arguments Err {A} e.
Arguments Panic {A} msg.

Definition indexOutOfRange : string := "index out of range".

(** ** The parts of package [strings] that the program calls *)

Definition semicolon : ascii := ";"%char.
Definition dot : ascii := "."%char.

(** [strings.Split(s, sep)] for a separator of one byte: all the substrings
    between the separators, so one more part than there are separators. *)
Fixpoint Split (s : string) (sep : ascii) : list string :=
  match s with
  | EmptyString => [EmptyString]
  | String c s' =>
      if decide (c = sep) then EmptyString :: Split s' sep
      else match Split s' sep with
           | p :: ps => String c p :: ps
           | [] => [String c EmptyString]
           end
  end.

(** [strings.Join(elems, sep)]. *)
Fixpoint Join (elems : list string) (sep : string) : string :=
  match elems with
  | [] => ""
  | [e] => e
  | e :: es => e +:+ sep +:+ Join es sep
  end.

(** [strings.ToLower] on bytes: an upper-case ASCII letter is moved by
    ['a' - 'A'], every other byte is kept.  (On text outside ASCII the library
    also lowers the letters of other alphabets.  The index only uses the
    function to normalise its keys, and the proofs only use that it keeps
    every byte [;] and makes none, see [ToLower_semicolon].) *)
Definition lowerByte (c : ascii) : ascii :=
  let n := nat_of_ascii c in
  if ((65 <=? n)%nat && (n <=? 90)%nat)%bool then ascii_of_nat (n + 32) else c.

Fixpoint ToLower (s : string) : string :=
  match s with
  | EmptyString => EmptyString
  | String c s' => String (lowerByte c) (ToLower s')
  end.

(** Number of occurrences of a byte, used to state what [Split] returns. *)
Fixpoint countByte (sep : ascii) (s : string) : nat :=
  match s with
  | EmptyString => 0
  | String c s' => (if decide (c = sep) then 1 else 0) + countByte sep s'
  end.

Definition freeOf (sep : ascii) (s : string) : Prop := countByte sep s = 0%nat.

(** ** Data model *)

(** [TreeReference]: a heading and its location in the tree. *)
Record TreeReference : Type := mkTreeReference {
  MedicalSubjectHeading : string;
  TreeLocation : list string
}.

(** [Node], with [Tree = map[string]Node] for its children. *)
Inductive Node : Type := mkNode {
  Reference : TreeReference;
  Children : gmap string Node;
  Depth : Z
}.

(** [type Tree map[string]Node]. *)
Abbreviation tree := (gmap string Node).

(** [MeSHTree]: the tree and the index from lower-cased heading to locations. *)
Record MeSHTree : Type := mkMeSHTree {
  Tree : tree;
  Locations : gmap string (list (list string))
}.

(** Arithmetic of [int64]. *)
Definition int64 (z : Z) : Z := (z + 2 ^ 63) mod 2 ^ 64 - 2 ^ 63.

(** ** The parser *)

Definition malformed (text : string) : error :=
  "malformed tree reference " +:+ text.

(** [treeReferenceFromString]. *)
Definition treeReferenceFromString (text : string) : result TreeReference :=
  let parts := Split text semicolon in
  if negb (length parts =? 2)%nat then Err (malformed text)
  else
    let locations := Split (nth 1 parts "") dot in
    Ok {| MedicalSubjectHeading := nth 0 parts ""; TreeLocation := locations |}.

(** ** Walking the tree *)

(** [Tree.At]: the part of the tree at a location, that is the children of
    the node the location leads to, and the empty tree when a segment is
    missing. *)
Fixpoint At (t : tree) (location : list string) : tree :=
  match location with
  | [] => t
  | s :: rest =>
      match t !! s with
      | Some node => At (Children node) rest
      | None => ∅
      end
  end.

(** The headings of a node and of everything beneath it: one round of the loop
    of [Tree.Terms]. *)
Fixpoint nodeTerms (node : Node) : list string :=
  MedicalSubjectHeading (Reference node)
    :: map_fold (fun _ child terms => nodeTerms child ++ terms) [] (Children node).

(** [Tree.Terms]: the headings of every node of a tree, children included. *)
Definition Terms (t : tree) : list string :=
  map_fold (fun _ node terms => nodeTerms node ++ terms) [] t.

(** ** Construction *)

(** [Node.addChild].  The receiver is a copy of the node, but its [Children]
    is the shared map, so the insertion is visible in the tree: the updated
    node is returned.  [location[0]] on an empty slice panics. *)
Fixpoint addChild (n : Node) (location : list string) (ref : TreeReference)
    (depth : Z) : result Node :=
  match location with
  | [] => Panic indexOutOfRange
  | s :: rest =>
      match Children n !! s with
      | Some innerNode =>
          match addChild innerNode rest ref (int64 (depth + 1)) with
          | Ok innerNode' =>
              Ok (mkNode (Reference n) (<[s := innerNode']> (Children n)) (Depth n))
          | Err e => Err e
          | Panic msg => Panic msg
          end
      | None =>
          Ok (mkNode (Reference n)
                (<[s := mkNode ref ∅ depth]> (Children n)) (Depth n))
      end
  end.

(** The body of the scanning loop of [MeSHTreeFromReader], after the line has
    been parsed: insertion in the tree, then the location is remembered. *)
Definition addReference (t : MeSHTree) (ref : TreeReference) : result MeSHTree :=
  match TreeLocation ref with
  | [] => Panic indexOutOfRange
  | s0 :: rest =>
      let remember (tr : tree) : MeSHTree :=
        let normalisedHeading := ToLower (MedicalSubjectHeading ref) in
        mkMeSHTree tr
          (<[normalisedHeading :=
               default [] (Locations t !! normalisedHeading) ++ [TreeLocation ref]]>
             (Locations t)) in
      match Tree t !! s0 with
      | None => Ok (remember (<[s0 := mkNode ref ∅ 0]> (Tree t)))
      | Some n =>
          match addChild n rest ref 0 with
          | Ok n' => Ok (remember (<[s0 := n']> (Tree t)))
          | Err e => Err e
          | Panic msg => Panic msg
          end
      end
  end.

(** The scanning loop over the lines that the scanner yields. *)
Fixpoint scanLines (t : MeSHTree) (lines : list string) : result MeSHTree :=
  match lines with
  | [] => Ok t
  | text :: rest =>
      match treeReferenceFromString text with
      | Ok ref =>
          match addReference t ref with
          | Ok t' => scanLines t' rest
          | Err e => Err e
          | Panic msg => Panic msg
          end
      | Err e => Err e
      | Panic msg => Panic msg
      end
  end.

(** What a [bufio.Scanner] makes of a reader: the lines it yields, and the
    error, if any, that ended the scan. *)
Record Reader : Type := mkReader {
  lines : list string;
  scanErr : option error
}.

Definition emptyMeSHTree : MeSHTree := mkMeSHTree ∅ ∅.

(** [MeSHTreeFromReader]. *)
Definition MeSHTreeFromReader (reader : Reader) : result MeSHTree :=
  match scanLines emptyMeSHTree (lines reader) with
  | Ok t =>
      match scanErr reader with
      | Some e => Err e
      | None => Ok t
      end
  | Err e => Err e
  | Panic msg => Panic msg
  end.

(** ** Queries *)

(** [MeSHTree.Explode]. *)
Definition Explode (t : MeSHTree) (term : string) : list string :=
  match Locations t !! ToLower term with
  | Some locations =>
      foldl (fun terms location => terms ++ Terms (At (Tree t) location)) [] locations
  | None => []
  end.

(** [MeSHTree.Depth] ([Depth] alone is the field of [Node]): the loop returns
    in its first round.  The length of a
    slice is an [int], which [int64] holds unchanged. *)
Definition MeSHDepth (t : MeSHTree) (term : string) : Z :=
  match Locations t !! ToLower term with
  | Some (location :: _) => Z.of_nat (length location)
  | _ => 0
  end.

(** [MeSHTree.Contains]. *)
Definition Contains (t : MeSHTree) (term : string) : bool :=
  match Locations t !! ToLower term with
  | Some _ => true
  | None => false
  end.

(** The test "the locations are the same" of [Parents]: [loc] is compared
    with [stored] index by index, from index [i] on, stopping at the first
    difference; reading [stored] past its end panics. *)
Fixpoint sameLocation (i : nat) (loc stored : list string) : result bool :=
  match loc with
  | [] => Ok true
  | v :: rest =>
      match stored !! i with
      | None => Panic indexOutOfRange
      | Some w => if decide (v ≠ w) then Ok false else sameLocation (S i) rest stored
      end
  end.

(** The loop of [Parents] over the entries of one level of the tree. *)
Fixpoint parentsAmong (loc : list string) (entries : list (string * Node))
    (parents : list string) : result (list string) :=
  match entries with
  | [] => Ok parents
  | (_, parent) :: rest =>
      match sameLocation 0 loc (TreeLocation (Reference parent)) with
      | Ok eq =>
          parentsAmong loc rest
            (if eq then parents ++ [MedicalSubjectHeading (Reference parent)]
             else parents)
      | Err e => Err e
      | Panic msg => Panic msg
      end
  end.

(** The loop of [Parents] over the locations of the term. *)
Fixpoint parentsOf (t : tree) (locations : list (list string))
    (parents : list string) : result (list string) :=
  match locations with
  | [] => Ok parents
  | location :: rest =>
      if decide (2 < length location)%nat then
        let loc := take (length location - 1) location in
        let p := At t (take (length location - 2) location) in
        match parentsAmong loc (map_to_list p) parents with
        | Ok parents' => parentsOf t rest parents'
        | Err e => Err e
        | Panic msg => Panic msg
        end
      else parentsOf t rest parents
  end.

(** [MeSHTree.Parents]. *)
Definition Parents (t : MeSHTree) (term : string) : result (list string) :=
  match Locations t !! ToLower term with
  | Some locations => parentsOf (Tree t) locations []
  | None => Ok []
  end.

(** The loop of [MeSHTree.Reference]; a failed parse is turned into a panic. *)
Fixpoint referencesOf (term : string) (locations : list (list string))
    (references : list TreeReference) : result (list TreeReference) :=
  match locations with
  | [] => Ok references
  | location :: rest =>
      match treeReferenceFromString (term +:+ ";" +:+ Join location ".") with
      | Ok ref => referencesOf term rest (references ++ [ref])
      | Err e => Panic e
      | Panic msg => Panic msg
      end
  end.

(** [MeSHTree.Reference] ([Reference] alone is the field of [Node]); the [nil]
    slice is the empty list. *)
Definition MeSHReference (t : MeSHTree) (term : string) : result (list TreeReference) :=
  match Locations t !! ToLower term with
  | Some locations => referencesOf term locations []
  | None => Ok []
  end.

(** ** Notions used to state the properties *)

(** The node a path resolves to, walking its segments in order from [t]. *)
Fixpoint nodeAt (t : tree) (path : list string) : option Node :=
  match path with
  | [] => None
  | s :: rest =>
      match t !! s with
      | Some node => match rest with [] => Some node | _ => nodeAt (Children node) rest end
      | None => None
      end
  end.

(** The references of the lines that parse. *)
Definition parsedLines (ls : list string) : list TreeReference :=
  omap (fun text => match treeReferenceFromString text with
                    | Ok ref => Some ref
                    | _ => None
                    end) ls.

(** The locations of the references filed under a key, in the order of the
    lines. *)
Definition recordedPaths (refs : list TreeReference) (key : string) : list (list string) :=
  TreeLocation <$> filter (fun ref => ToLower (MedicalSubjectHeading ref) = key) refs.

(** The shape of a parsed reference: the heading and the segments are free of
    the separator [;], the segments are free of [.], and there is at least one
    segment. *)
Record wellFormed (ref : TreeReference) : Prop := {
  wf_heading : freeOf semicolon (MedicalSubjectHeading ref);
  wf_segments : Forall (freeOf semicolon) (TreeLocation ref);
  wf_dots : Forall (freeOf dot) (TreeLocation ref);
  wf_not_nil : TreeLocation ref ≠ []
}.

(** A measure for induction on nodes through the map of their children. *)
Fixpoint nodeSize (node : Node) : nat :=
  S (map_fold (fun _ child size => nodeSize child + size)%nat 0%nat (Children node)).

(** The number of nodes of a tree, children included. *)
Definition treeSize (t : tree) : nat :=
  map_fold (fun _ node size => nodeSize node + size)%nat 0%nat t.

(** [headingAt t h]: some path of [t] resolves to a node with heading [h]. *)
Definition headingAt (t : tree) (h : string) : Prop :=
  ∃ path node, nodeAt t path = Some node ∧ MedicalSubjectHeading (Reference node) = h.

(** One insertion in a tree, as [addChild] and the first layer of the loader
    perform it: the reference is placed at the first segment of the location
    that is missing, below the nodes that exist already. *)
Inductive grafted (ref : TreeReference) : list string → tree → tree → Prop :=
| grafted_here (s : string) (rest : list string) (t : tree) (depth : Z) :
    t !! s = None →
    grafted ref (s :: rest) t (<[s := mkNode ref ∅ depth]> t)
| grafted_below (s : string) (rest : list string) (t : tree) (inner : Node)
    (children : tree) :
    t !! s = Some inner →
    grafted ref rest (Children inner) children →
    grafted ref (s :: rest) t
      (<[s := mkNode (Reference inner) children (Depth inner)]> t).

(** [p[:len(p)-1]]. *)
Definition parentPath (p : list string) : list string := take (length p - 1) p.

(** The lines come parents first: the location of every reference has one
    segment, or is one segment longer than the location of an earlier
    reference ([seen] holds the earlier locations). *)
Fixpoint parentFirst (seen : list (list string)) (refs : list TreeReference) : bool :=
  match refs with
  | [] => true
  | ref :: rest =>
      let p := TreeLocation ref in
      (bool_decide (length p ≤ 1)%nat || bool_decide (parentPath p ∈ seen))
      && parentFirst (p :: seen) rest
  end.

(** The heading of an entry of a tree. *)
Definition headingOf (entry : string * Node) : string :=
  MedicalSubjectHeading (Reference entry.2).

(** The parents that one location of a term selects: the headings of the
    entries of the tree two segments up whose stored location agrees with the
    location one segment up on each of its elements. *)
Definition selectedParents (t : tree) (p : list string) : list string :=
  if decide (2 < length p)%nat then
    headingOf <$>
      filter (fun entry : string * Node =>
                parentPath p `prefix_of` TreeLocation (Reference entry.2))
             (map_to_list (At t (take (length p - 2) p)))
  else [].

(** The heading of the node one segment above a location of more than two
    segments, when that node exists. *)
Definition parentAbove (t : tree) (p : list string) : list string :=
  if decide (2 < length p)%nat then
    from_option (fun n => [MedicalSubjectHeading (Reference n)]) []
      (nodeAt t (parentPath p))
  else [].

(** The entry of a key is absent when no line was filed under it, and holds
    the locations of the lines filed under it, in their order, otherwise. *)
Definition recorded (refs : list TreeReference) (key : string) : option (list (list string)) :=
  match recordedPaths refs key with
  | [] => None
  | ps => Some ps
  end.

(** Every node stores a location that begins with the path leading to it. *)
Definition storesPrefix (t : tree) : Prop :=
  ∀ q m, nodeAt t q = Some m → q `prefix_of` TreeLocation (Reference m).

(** ** A small vocabulary

    The lines [A;1], [B;1.1], [C;1.1.1] and the index built from them. *)
Definition scenario : Reader := mkReader ["A;1"; "B;1.1"; "C;1.1.1"] None.

Definition scenarioTree : MeSHTree :=
  Eval vm_compute in
    match MeSHTreeFromReader scenario with
    | Ok t => t
    | _ => emptyMeSHTree
    end.

(** The small index after two more lines, [D;1.2] and [d;2]. *)
Definition scenarioMore : MeSHTree :=
  Eval vm_compute in
    match scanLines scenarioTree ["D;1.2"; "d;2"] with
    | Ok t => t
    | _ => emptyMeSHTree
    end.

(** Below a node that [addChild] is called on with counter [depth], a node
    reached by [k] more segments was given the depth [depth + k - 1]. *)
Definition depthsFrom (depth : Z) (t : tree) : Prop :=
  ∀ q m, nodeAt t q = Some m → Depth m = int64 (depth + Z.of_nat (length q) - 1).

(** What a tree built from lines that come parents first is: the locations
    of the lines are distinct, every line has its node, at its location, and
    every node is the node of a line. *)
Definition nodesAreLines (t : tree) (refs : list TreeReference) : Prop :=
  NoDup (TreeLocation <$> refs)
  ∧ (∀ ref, ref ∈ refs →
       ∃ n, nodeAt t (TreeLocation ref) = Some n ∧ Reference n = ref)
  ∧ (∀ q n, nodeAt t q = Some n →
       Reference n ∈ refs ∧ TreeLocation (Reference n) = q).

(** The parents that one location of a term selects when the test is the one
    the comment in [Parents] names, "the locations are the same": the
    headings of the entries of the tree two segments up whose stored location
    is the location one segment up. *)
Definition sameLocationParents (t : tree) (p : list string) : list string :=
  if decide (2 < length p)%nat then
    headingOf <$>
      filter (fun entry : string * Node =>
                TreeLocation (Reference entry.2) = parentPath p)
             (map_to_list (At t (take (length p - 2) p)))
  else [].

(** Three lines that do not come parents first: [A;1], [B;1.9.9], [C;1.2.3],
    and the index built from them. *)
Definition orphans : Reader := mkReader ["A;1"; "B;1.9.9"; "C;1.2.3"] None.

Definition orphansTree : MeSHTree :=
  Eval vm_compute in
    match MeSHTreeFromReader orphans with
    | Ok t => t
    | _ => emptyMeSHTree
    end.

(** * Properties *)

(** ** Strings *)

Section Strings.
Variable sep : ascii.

Lemma Split_length (s : string) :
  length (Split s sep) = S (countByte sep s).
Proof.
  induction s as [|c s IH]; simpl; [done|].
  case_decide; simpl; [by rewrite IH|].
  destruct (Split s sep); simpl in *; lia.
Qed.

Lemma Split_not_nil (s : string) : Split s sep ≠ [].
Proof. intros E. pose proof (Split_length s) as H. rewrite E in H. done. Qed.

Lemma Split_freeOf (s : string) : Forall (freeOf sep) (Split s sep).
Proof.
  induction s as [|c s IH]; simpl.
  - by repeat constructor.
  - case_decide.
    + by constructor.
    + destruct (Split s sep) as [|p ps] eqn:E; [by destruct (Split_not_nil s)|].
      inversion_clear IH. constructor; [|done].
      unfold freeOf in *. simpl. by rewrite decide_False.
Qed.

Lemma Join_Split (s : string) : Join (Split s sep) (String sep "") = s.
Proof.
  induction s as [|c s IH]; simpl; [done|].
  case_decide as Hc.
  - destruct (Split s sep) eqn:E; [by destruct (Split_not_nil s)|].
    subst c. by rewrite <- IH.
  - destruct (Split s sep) as [|p [|p' ps]] eqn:E; [by destruct (Split_not_nil s)|..];
      by rewrite <- IH.
Qed.

Lemma Split_freeOf_id (s : string) : freeOf sep s → Split s sep = [s].
Proof.
  unfold freeOf. induction s as [|c s IH]; simpl; [done|].
  case_decide; [done|]. intros Hs. by rewrite IH.
Qed.

Lemma Split_app (a b : string) :
  freeOf sep a → Split (a +:+ String sep b) sep = a :: Split b sep.
Proof.
  unfold freeOf. induction a as [|c a IH]; simpl.
  - by rewrite decide_True.
  - case_decide; [done|]. intros Ha. by rewrite IH.
Qed.

Lemma Split_Join (ps : list string) :
  ps ≠ [] → Forall (freeOf sep) ps → Split (Join ps (String sep "")) sep = ps.
Proof.
  induction ps as [|p ps IH]; [done|]. intros _ Hall.
  inversion_clear Hall as [|? ? Hp Hps].
  destruct ps as [|p' ps].
  - by apply Split_freeOf_id.
  - change (Join (p :: p' :: ps) (String sep ""))
      with (p +:+ String sep (Join (p' :: ps) (String sep ""))).
    rewrite Split_app by done. f_equal. by apply IH.
Qed.

Lemma countByte_app (a b : string) :
  countByte sep (a +:+ b) = (countByte sep a + countByte sep b)%nat.
Proof. induction a as [|c a IH]; simpl; [done|]. rewrite IH. lia. Qed.

Lemma countByte_Join (ps : list string) (j : ascii) :
  j ≠ sep → Forall (freeOf sep) ps → freeOf sep (Join ps (String j "")).
Proof.
  intros Hj. unfold freeOf. induction ps as [|p ps IH]; [done|].
  intros Hall. inversion_clear Hall as [|? ? Hp Hps].
  destruct ps as [|p' ps]; [done|].
  change (Join (p :: p' :: ps) (String j "")) with (p +:+ String j "" +:+ Join (p' :: ps) (String j "")).
  rewrite !countByte_app, Hp, IH by done. simpl. by rewrite decide_False.
Qed.
End Strings.

Lemma lowerByte_semicolon (c : ascii) : lowerByte c = semicolon ↔ c = semicolon.
Proof.
  destruct c as [[] [] [] [] [] [] [] []]; vm_compute; split; congruence.
Qed.

Lemma ToLower_semicolon (s : string) :
  countByte semicolon (ToLower s) = countByte semicolon s.
Proof.
  induction s as [|c s IH]; simpl; [done|]. rewrite IH. f_equal.
  destruct (lowerByte_semicolon c) as [Hl Hr].
  destruct (decide (c = semicolon)), (decide (lowerByte c = semicolon)); tauto.
Qed.

(** ** The parser *)

(** What a successful parse returns, in terms of the two parts of the line. *)
Lemma treeReferenceFromString_Ok (text : string) (ref : TreeReference) :
  treeReferenceFromString text = Ok ref ↔
  ∃ heading path, Split text semicolon = [heading; path]
                  ∧ ref = mkTreeReference heading (Split path dot).
Proof.
  unfold treeReferenceFromString.
  destruct (Split text semicolon) as [|p0 [|p1 [|p2 ps]]] eqn:E; simpl; split;
    try done; try (by intros (? & ? & ? & ?)).
  - intros [= <-]. eauto.
  - intros (? & ? & [= <- <-] & ->). done.
Qed.

Lemma treeReferenceFromString_Err (text : string) (e : error) :
  treeReferenceFromString text = Err e ↔
  length (Split text semicolon) ≠ 2%nat ∧ e = malformed text.
Proof.
  unfold treeReferenceFromString.
  destruct (Nat.eqb_spec (length (Split text semicolon)) 2) as [->|Hne]; simpl.
  - split; [done|]. by intros [? _].
  - split; [intros [= <-]; done|]. by intros [_ ->].
Qed.

Lemma treeReferenceFromString_no_panic (text msg : string) :
  treeReferenceFromString text ≠ Panic msg.
Proof. unfold treeReferenceFromString. by case_match. Qed.

Lemma freeOf_Split_other (a b : ascii) (s : string) :
  freeOf a s → Forall (freeOf a) (Split s b).
Proof.
  unfold freeOf. induction s as [|c s IH]; simpl.
  - by repeat constructor.
  - intros Hs. destruct (decide (c = a)) as [|Hca]; [simpl in Hs; lia|].
    simpl in Hs. specialize (IH Hs). destruct (decide (c = b)).
    + by constructor.
    + destruct (Split s b) as [|p ps] eqn:E; [by destruct (Split_not_nil b s)|].
      inversion_clear IH as [|? ? Hp Hps].
      constructor; [|done]. simpl. by rewrite decide_False.
Qed.

Lemma treeReferenceFromString_wellFormed (text : string) (ref : TreeReference) :
  treeReferenceFromString text = Ok ref → wellFormed ref.
Proof.
  intros (heading & path & Hsplit & ->)%treeReferenceFromString_Ok.
  pose proof (Split_freeOf semicolon text) as Hfree. rewrite Hsplit in Hfree.
  inversion_clear Hfree as [|? ? Hh Hrest]. inversion_clear Hrest as [|? ? Hp _].
  split; simpl; [done| |apply Split_freeOf|apply Split_not_nil].
  by apply freeOf_Split_other.
Qed.

(** ** Walking the tree: [At], [nodeAt] and [Terms] *)

Lemma nodeAt_cons (t : tree) (s : string) (rest : list string) :
  rest ≠ [] → nodeAt t (s :: rest) = t !! s ≫= fun node => nodeAt (Children node) rest.
Proof. intros Hrest. simpl. destruct (t !! s); simpl; [|done]. by destruct rest. Qed.

Lemma nodeAt_singleton (t : tree) (s : string) : nodeAt t [s] = t !! s.
Proof. simpl. by destruct (t !! s). Qed.

Lemma nodeAt_empty (path : list string) : nodeAt (∅ : tree) path = None.
Proof. destruct path; simpl; [done|]. by rewrite lookup_empty. Qed.

(** Resolving a path below a location is resolving it in the part of the tree
    at that location. *)
Lemma nodeAt_app (t : tree) (p q : list string) :
  q ≠ [] → nodeAt t (p ++ q) = nodeAt (At t p) q.
Proof.
  intros Hq. revert t. induction p as [|s p IH]; intros t; [done|].
  rewrite <- app_comm_cons, nodeAt_cons by (by destruct p, q). simpl.
  destruct (t !! s); simpl; [apply IH|by rewrite nodeAt_empty].
Qed.

Lemma At_lookup (t : tree) (p : list string) (s : string) :
  At t p !! s = nodeAt t (p ++ [s]).
Proof. by rewrite nodeAt_app, nodeAt_singleton. Qed.

(** [At] returns the children of the node the location resolves to. *)
Lemma At_nodeAt (t : tree) (p : list string) :
  p ≠ [] → At t p = from_option Children ∅ (nodeAt t p).
Proof.
  revert t. induction p as [|s p IH]; intros t Hp; [done|]. simpl.
  destruct (t !! s) as [node|]; [|done].
  destruct p as [|s' p]; [done|]. by apply IH.
Qed.

Lemma nodeAt_prefix_is_Some (t : tree) (p q : list string) :
  p ≠ [] → is_Some (nodeAt t (p ++ q)) → is_Some (nodeAt t p).
Proof.
  revert t. induction p as [|s p IH]; intros t Hp; [done|].
  destruct p as [|s' p].
  - destruct q; [done|]. rewrite <- app_comm_cons, nodeAt_cons, nodeAt_singleton by done.
    destruct (t !! s); [done|]. by intros [? ?].
  - rewrite <- app_comm_cons, !nodeAt_cons by done.
    destruct (t !! s); simpl; [by apply IH|by intros [? ?]].
Qed.

(** The loop of [Tree.Terms] as a concatenation over the entries. *)
Lemma fold_app_concat {A B} (f : A → list B) (l : list A) :
  foldr (fun x acc => f x ++ acc) [] l = mjoin (f <$> l).
Proof. induction l as [|x l IH]; simpl; [done|]. by rewrite IH. Qed.

Lemma Terms_concat (t : tree) :
  Terms t = mjoin ((fun entry => nodeTerms entry.2) <$> map_to_list t).
Proof.
  unfold Terms. rewrite map_fold_foldr.
  rewrite <- (fold_app_concat (fun entry : string * Node => nodeTerms entry.2)).
  apply foldr_ext; [by intros [] ?|done|done].
Qed.

Lemma nodeTerms_Terms (node : Node) :
  nodeTerms node = MedicalSubjectHeading (Reference node) :: Terms (Children node).
Proof. by destruct node. Qed.

Lemma Terms_empty : Terms ∅ = [].
Proof. unfold Terms. by rewrite map_fold_empty. Qed.

Lemma nodeSize_child (node child : Node) (s : string) :
  Children node !! s = Some child → (nodeSize child < nodeSize node)%nat.
Proof.
  intros Hs%elem_of_map_to_list. destruct node as [r c d]. simpl in *.
  rewrite map_fold_foldr. apply Nat.lt_succ_r.
  induction (map_to_list c) as [|[s' child'] l IH]; [by apply elem_of_nil in Hs|].
  apply elem_of_cons in Hs as [[= <- <-]|Hs]; simpl; [lia|].
  specialize (IH Hs). lia.
Qed.

Lemma Node_children_ind (P : Node → Prop) :
  (∀ node, (∀ s child, Children node !! s = Some child → P child) → P node) →
  ∀ node, P node.
Proof.
  intros Hstep.
  assert (∀ k node, (nodeSize node < k)%nat → P node) as Hk.
  { induction k as [|k IH]; intros node Hlt; [lia|].
    apply Hstep. intros s child Hs. apply IH.
    pose proof (nodeSize_child node child s Hs). lia. }
  intros node. by apply (Hk (S (nodeSize node))), Nat.lt_succ_diag_r.
Qed.

Lemma elem_of_Terms_entries (t : tree) (h : string) :
  h ∈ Terms t ↔ ∃ s node, t !! s = Some node ∧ h ∈ nodeTerms node.
Proof.
  rewrite Terms_concat, list_elem_of_join. split.
  - intros (l & Hh & ([s node] & -> & Hin%elem_of_map_to_list)%list_elem_of_fmap). eauto.
  - intros (s & node & Hs & Hh). exists (nodeTerms node). split; [done|].
    apply list_elem_of_fmap. exists (s, node). by rewrite elem_of_map_to_list.
Qed.

Lemma headingAt_entries (t : tree) (h : string) :
  headingAt t h ↔
  ∃ s node, t !! s = Some node
            ∧ (h = MedicalSubjectHeading (Reference node) ∨ headingAt (Children node) h).
Proof.
  split.
  - intros ([|s path] & node & Hat & Hh); [done|].
    destruct path as [|s' path].
    + rewrite nodeAt_singleton in Hat. exists s, node. eauto.
    + rewrite nodeAt_cons in Hat by done.
      destruct (t !! s) as [inner|] eqn:Hs; [|done]. simpl in Hat.
      exists s, inner. split; [done|]. right. by exists (s' :: path), node.
  - intros (s & node & Hs & [->|(path & node' & Hat & Hh)]).
    + exists [s], node. by rewrite nodeAt_singleton.
    + exists (s :: path), node'. split; [|done].
      rewrite nodeAt_cons by (by destruct path). by rewrite Hs.
Qed.

Lemma elem_of_nodeTerms (node : Node) (h : string) :
  h ∈ nodeTerms node ↔
  h = MedicalSubjectHeading (Reference node) ∨ headingAt (Children node) h.
Proof.
  revert h. induction node as [node IH] using Node_children_ind. intros h.
  rewrite nodeTerms_Terms, elem_of_cons, elem_of_Terms_entries, headingAt_entries.
  split; (intros [->|(s & child & Hs & Hh)]; [by left|right]);
    exists s, child; (split; [done|]); by apply (IH s child Hs).
Qed.

Lemma elem_of_Terms (t : tree) (h : string) : h ∈ Terms t ↔ headingAt t h.
Proof.
  rewrite elem_of_Terms_entries, headingAt_entries.
  by setoid_rewrite elem_of_nodeTerms.
Qed.

(** [Terms] returns one heading for each node. *)
Lemma length_Terms_entries (t : tree) :
  (∀ s node, t !! s = Some node → length (nodeTerms node) = nodeSize node) →
  length (Terms t) = treeSize t.
Proof.
  unfold Terms, treeSize. rewrite !map_fold_foldr. intros Hall.
  assert (∀ entry : string * Node, entry ∈ map_to_list t →
            length (nodeTerms entry.2) = nodeSize entry.2) as Hentries.
  { intros [s node] Hin%elem_of_map_to_list. by eapply Hall. }
  clear Hall. induction (map_to_list t) as [|[s node] l IH]; [done|]. simpl.
  rewrite length_app, IH.
  - f_equal. apply (Hentries (s, node)). apply elem_of_cons. by left.
  - intros entry Hin. apply Hentries. apply elem_of_cons. by right.
Qed.

Lemma length_nodeTerms (node : Node) : length (nodeTerms node) = nodeSize node.
Proof.
  induction node as [node IH] using Node_children_ind.
  rewrite nodeTerms_Terms. simpl. rewrite (length_Terms_entries _ IH).
  by destruct node.
Qed.

Lemma length_Terms (t : tree) : length (Terms t) = treeSize t.
Proof. apply length_Terms_entries. intros s node _. apply length_nodeTerms. Qed.

(** ** Insertion *)

Lemma nodeAt_insert_ne (t : tree) (s k : string) (x : Node) (q : list string) :
  s ≠ k → nodeAt (<[s := x]> t) (k :: q) = nodeAt t (k :: q).
Proof. intros Hne. simpl. by rewrite lookup_insert_ne. Qed.

Lemma nodeAt_insert_eq (t : tree) (s : string) (x : Node) (q : list string) :
  nodeAt (<[s := x]> t) (s :: q)
  = match q with [] => Some x | _ => nodeAt (Children x) q end.
Proof. simpl. by rewrite lookup_insert_eq. Qed.

Lemma nodeAt_head (t : tree) (s : string) (q : list string) (m : Node) :
  nodeAt t (s :: q) = Some m → is_Some (t !! s).
Proof. simpl. destruct (t !! s); [eauto|done]. Qed.

(** [addChild] never returns an error; when it returns, it has grafted the
    reference and left the receiver's own reference and depth alone. *)
Lemma addChild_Ok (location : list string) (n n' : Node) (ref : TreeReference) (depth : Z) :
  addChild n location ref depth = Ok n' →
  Reference n' = Reference n ∧ Depth n' = Depth n
  ∧ grafted ref location (Children n) (Children n').
Proof.
  revert n n' depth. induction location as [|s rest IH]; intros n n' depth; [done|].
  simpl. destruct (Children n !! s) as [innerNode|] eqn:Hs.
  - destruct (addChild innerNode rest ref (int64 (depth + 1))) as [inner'| |] eqn:Hadd;
      [|done..].
    intros [= <-]. simpl. split_and!; [done..|].
    destruct (IH _ _ _ Hadd) as (Href & Hdepth & Hgraft).
    destruct inner' as [r c d]. simpl in *. subst r d.
    by apply grafted_below.
  - intros [= <-]. simpl. split_and!; [done..|]. by apply grafted_here.
Qed.

Lemma addChild_not_Err (location : list string) (n : Node) (ref : TreeReference)
    (depth : Z) (e : error) :
  addChild n location ref depth ≠ Err e.
Proof.
  revert n depth. induction location as [|s rest IH]; intros n depth; [done|].
  simpl. destruct (Children n !! s) as [innerNode|]; [|done].
  specialize (IH innerNode (int64 (depth + 1))).
  by destruct (addChild innerNode rest ref (int64 (depth + 1))).
Qed.

(** [addChild] panics exactly when the location is exhausted: it is empty, or
    every one of its segments is already a node. *)
Lemma addChild_Panic (location : list string) (n : Node) (ref : TreeReference) (depth : Z) :
  (location = [] ∨ is_Some (nodeAt (Children n) location)) ↔
  addChild n location ref depth = Panic indexOutOfRange.
Proof.
  revert n depth. induction location as [|s rest IH]; intros n depth.
  { split; [done|by left]. }
  simpl addChild. destruct (Children n !! s) as [innerNode|] eqn:Hs.
  - assert ((s :: rest = [] ∨ is_Some (nodeAt (Children n) (s :: rest))) ↔
            (rest = [] ∨ is_Some (nodeAt (Children innerNode) rest))) as ->.
    { simpl. rewrite Hs. destruct rest; split; intros [?|?]; eauto; done. }
    rewrite (IH innerNode (int64 (depth + 1))).
    destruct (addChild innerNode rest ref (int64 (depth + 1))); split; congruence.
  - split; [|done]. intros [?|[m Hm]]; [done|]. simpl in Hm. by rewrite Hs in Hm.
Qed.

Lemma addReference_Ok (t t' : MeSHTree) (ref : TreeReference) :
  addReference t ref = Ok t' →
  grafted ref (TreeLocation ref) (Tree t) (Tree t')
  ∧ Locations t'
    = <[ToLower (MedicalSubjectHeading ref) :=
          default [] (Locations t !! ToLower (MedicalSubjectHeading ref))
            ++ [TreeLocation ref]]> (Locations t).
Proof.
  unfold addReference. destruct (TreeLocation ref) as [|s0 rest]; [done|].
  destruct (Tree t !! s0) as [n|] eqn:Hs0.
  - destruct (addChild n rest ref 0) as [n'| |] eqn:Hadd; [|done..].
    intros [= <-]. simpl. split; [|done].
    destruct (addChild_Ok _ _ _ _ _ Hadd) as (Href & Hdepth & Hgraft).
    destruct n' as [r c d]. simpl in *. subst r d. by apply grafted_below.
  - intros [= <-]. simpl. split; [|done]. by apply grafted_here.
Qed.

Lemma addReference_not_Err (t : MeSHTree) (ref : TreeReference) (e : error) :
  addReference t ref ≠ Err e.
Proof.
  unfold addReference. destruct (TreeLocation ref) as [|s0 rest]; [done|].
  destruct (Tree t !! s0) as [n|]; [|done].
  pose proof (addChild_not_Err rest n ref 0) as Hne.
  destruct (addChild n rest ref 0) as [n'|e'|msg]; [done| |done].
  by destruct (Hne e').
Qed.

(** The loader panics on a reference exactly when its location is empty or
    resolves to a node of the tree built so far. *)
Lemma addReference_Panic (t : MeSHTree) (ref : TreeReference) :
  (TreeLocation ref = [] ∨ is_Some (nodeAt (Tree t) (TreeLocation ref))) ↔
  addReference t ref = Panic indexOutOfRange.
Proof.
  unfold addReference. destruct (TreeLocation ref) as [|s0 rest]; [split; [done|by left]|].
  destruct (Tree t !! s0) as [n|] eqn:Hs0.
  - assert ((s0 :: rest = [] ∨ is_Some (nodeAt (Tree t) (s0 :: rest))) ↔
            (rest = [] ∨ is_Some (nodeAt (Children n) rest))) as ->.
    { simpl. rewrite Hs0. destruct rest; split; intros [?|?]; eauto; done. }
    rewrite (addChild_Panic rest n ref 0).
    destruct (addChild n rest ref 0); split; congruence.
  - split; [|done]. intros [?|[m Hm]]; [done|]. simpl in Hm. by rewrite Hs0 in Hm.
Qed.

(** First write wins: an insertion keeps every node that a path resolved to,
    with its reference and its depth. *)
Lemma grafted_preserves (ref : TreeReference) (location : list string) (t t' : tree) :
  grafted ref location t t' →
  ∀ q m, nodeAt t q = Some m →
    ∃ m', nodeAt t' q = Some m' ∧ Reference m' = Reference m ∧ Depth m' = Depth m.
Proof.
  induction 1 as [s rest t depth Hs|s rest t inner children Hs Hgraft IH];
    intros [|k q] m Hat; try done.
  - destruct (decide (s = k)) as [->|Hne].
    + apply nodeAt_head in Hat as [? Hk]. congruence.
    + exists m. by rewrite nodeAt_insert_ne.
  - destruct (decide (s = k)) as [->|Hne].
    + rewrite nodeAt_insert_eq. simpl in Hat. rewrite Hs in Hat.
      destruct q as [|k' q]; [injection Hat as <-; eauto|].
      by apply IH.
    + exists m. by rewrite nodeAt_insert_ne.
Qed.

(** Every node after an insertion was there before, or holds the inserted
    reference at a prefix of its location. *)
Lemma grafted_origin (ref : TreeReference) (location : list string) (t t' : tree) :
  grafted ref location t t' →
  ∀ q m', nodeAt t' q = Some m' →
    (∃ m, nodeAt t q = Some m ∧ Reference m = Reference m')
    ∨ (Reference m' = ref ∧ q `prefix_of` location ∧ nodeAt t q = None).
Proof.
  induction 1 as [s rest t depth Hs|s rest t inner children Hs Hgraft IH];
    intros [|k q] m' Hat; try done.
  - destruct (decide (s = k)) as [->|Hne].
    + rewrite nodeAt_insert_eq in Hat. destruct q as [|k' q].
      * injection Hat as <-. right. split_and!; [done| |by rewrite nodeAt_singleton].
        apply prefix_cons, prefix_nil.
      * simpl in Hat. by rewrite lookup_empty in Hat.
    + rewrite nodeAt_insert_ne in Hat by done. eauto.
  - destruct (decide (s = k)) as [->|Hne].
    + rewrite nodeAt_insert_eq in Hat. destruct q as [|k' q].
      * injection Hat as <-. left. exists inner. by rewrite nodeAt_singleton.
      * cbn [Children] in Hat.
        destruct (IH _ _ Hat) as [(m & Hm & Href)|(Href & Hpre & Hnone)].
        -- left. exists m. by rewrite nodeAt_cons, Hs.
        -- right. split_and!; [done|by apply prefix_cons|by rewrite nodeAt_cons, Hs].
    + rewrite nodeAt_insert_ne in Hat by done. eauto.
Qed.

(** When the parent of the location is a node already, the insertion puts
    the reference at the location itself. *)
Lemma grafted_parent (ref : TreeReference) (location : list string) (t t' : tree) :
  grafted ref location t t' →
  (length location ≤ 1)%nat ∨ is_Some (nodeAt t (parentPath location)) →
  ∃ m', nodeAt t' location = Some m' ∧ Reference m' = ref.
Proof.
  unfold parentPath.
  induction 1 as [s rest t depth Hs|s rest t inner children Hs Hgraft IH]; intros Hparent.
  - destruct rest as [|s' rest].
    + eexists. by rewrite nodeAt_insert_eq.
    + destruct Hparent as [?|[m Hm]]; [simpl in *; lia|].
      simpl length in Hm. rewrite Nat.sub_succ, Nat.sub_0_r in Hm.
      change (take (S (length rest)) (s :: s' :: rest))
        with (s :: take (length rest) (s' :: rest)) in Hm.
      apply nodeAt_head in Hm as [? ?]. congruence.
  - destruct rest as [|s' rest]; [by inversion Hgraft|].
    rewrite nodeAt_insert_eq. simpl. apply IH.
    destruct rest as [|s'' rest]; [left; simpl; lia|right].
    destruct Hparent as [?|[m Hm]]; [simpl in *; lia|].
    simpl length in *. rewrite !Nat.sub_succ, !Nat.sub_0_r in *.
    change (take (S (S (length rest))) (s :: s' :: s'' :: rest))
      with (s :: take (S (length rest)) (s' :: s'' :: rest)) in Hm.
    rewrite nodeAt_cons, Hs in Hm by done. by exists m.
Qed.

(** ** The scanning loop *)

Lemma parsedLines_cons (text : string) (rest : list string) :
  parsedLines (text :: rest)
  = match treeReferenceFromString text with
    | Ok ref => ref :: parsedLines rest
    | _ => parsedLines rest
    end.
Proof. unfold parsedLines. simpl. by destruct (treeReferenceFromString text). Qed.

(** Induction along a scan that succeeds: a property of the index and of the
    references read so far that every insertion maintains holds at the end. *)
Lemma scanLines_Ok_ind (P : MeSHTree → list TreeReference → Prop) :
  (∀ t refs ref t',
     P t refs → wellFormed ref → addReference t ref = Ok t' → P t' (refs ++ [ref])) →
  ∀ ls t refs t',
    P t refs → scanLines t ls = Ok t' → P t' (refs ++ parsedLines ls).
Proof.
  intros Hstep. induction ls as [|text rest IH]; intros t refs t' HP.
  - intros [= <-]. by rewrite app_nil_r.
  - rewrite parsedLines_cons. simpl scanLines.
    destruct (treeReferenceFromString text) as [ref| |] eqn:Hparse; [|done..].
    destruct (addReference t ref) as [t1| |] eqn:Hadd; [|done..].
    intros Hscan. rewrite cons_middle, app_assoc.
    apply (IH t1); [|done].
    apply (Hstep t); [done| |done]. by eapply treeReferenceFromString_wellFormed.
Qed.

Lemma MeSHTreeFromReader_Ok (reader : Reader) (t : MeSHTree) :
  MeSHTreeFromReader reader = Ok t ↔
  scanLines emptyMeSHTree (lines reader) = Ok t ∧ scanErr reader = None.
Proof.
  unfold MeSHTreeFromReader.
  destruct (scanLines emptyMeSHTree (lines reader)) as [t0|e|msg];
    [|split; [done|by intros [? _]]..].
  destruct (scanErr reader) as [e|]; split.
  - done.
  - by intros [_ ?].
  - by intros [= ->].
  - by intros [[= ->] _].
Qed.

Lemma built_ind (P : MeSHTree → list TreeReference → Prop) :
  P emptyMeSHTree [] →
  (∀ t refs ref t',
     P t refs → wellFormed ref → addReference t ref = Ok t' → P t' (refs ++ [ref])) →
  ∀ reader t,
    MeSHTreeFromReader reader = Ok t → P t (parsedLines (lines reader)).
Proof.
  intros Hempty Hstep reader t [Hscan _]%MeSHTreeFromReader_Ok.
  by apply (scanLines_Ok_ind P Hstep (lines reader) emptyMeSHTree [] t).
Qed.

Lemma parsedLines_wellFormed (ls : list string) :
  Forall wellFormed (parsedLines ls).
Proof.
  induction ls as [|text rest IH]; [constructor|]. rewrite parsedLines_cons.
  destruct (treeReferenceFromString text) eqn:Hparse; [|done..].
  constructor; [|done]. by eapply treeReferenceFromString_wellFormed.
Qed.

(** *** The index of locations *)

Lemma recordedPaths_snoc (refs : list TreeReference) (ref : TreeReference) (key : string) :
  recordedPaths (refs ++ [ref]) key
  = recordedPaths refs key
    ++ (if decide (ToLower (MedicalSubjectHeading ref) = key) then [TreeLocation ref] else []).
Proof.
  unfold recordedPaths. rewrite filter_app, fmap_app. f_equal.
  rewrite filter_cons, filter_nil. by case_decide.
Qed.

Lemma elem_of_recordedPaths (refs : list TreeReference) (key : string) (p : list string) :
  p ∈ recordedPaths refs key ↔
  ∃ ref, ref ∈ refs ∧ ToLower (MedicalSubjectHeading ref) = key ∧ TreeLocation ref = p.
Proof.
  unfold recordedPaths. rewrite list_elem_of_fmap. split.
  - intros (ref & -> & [? ?]%list_elem_of_filter). eauto.
  - intros (ref & ? & ? & <-). exists ref. by rewrite list_elem_of_filter.
Qed.

Lemma built_Locations (reader : Reader) (t : MeSHTree) :
  MeSHTreeFromReader reader = Ok t →
  ∀ key, Locations t !! key = recorded (parsedLines (lines reader)) key.
Proof.
  apply (built_ind (fun t refs => ∀ key, Locations t !! key = recorded refs key)).
  { intros key. apply lookup_empty. }
  intros t0 refs ref t' IH _ [_ ->]%addReference_Ok key.
  unfold recorded in *. rewrite recordedPaths_snoc.
  destruct (decide (ToLower (MedicalSubjectHeading ref) = key)) as [->|Hne].
  - rewrite lookup_insert_eq, IH. by destruct (recordedPaths refs key).
  - by rewrite lookup_insert_ne, IH, app_nil_r.
Qed.

Lemma recorded_Some (refs : list TreeReference) (key : string) (ps : list (list string)) :
  recorded refs key = Some ps ↔ ps ≠ [] ∧ recordedPaths refs key = ps.
Proof.
  unfold recorded. destruct (recordedPaths refs key); split; try done.
  - by intros [? <-].
  - by intros [= <-].
  - by intros [_ <-].
Qed.

Lemma recorded_None (refs : list TreeReference) (key : string) :
  recorded refs key = None ↔ recordedPaths refs key = [].
Proof. unfold recorded. by destruct (recordedPaths refs key). Qed.

(** *** What the nodes store *)

Lemma built_storesPrefix (reader : Reader) (t : MeSHTree) :
  MeSHTreeFromReader reader = Ok t → storesPrefix (Tree t).
Proof.
  apply (built_ind (fun t _ => storesPrefix (Tree t))).
  { intros q m. by rewrite nodeAt_empty. }
  intros t0 refs ref t' IH _ [Hgraft _]%addReference_Ok q m' Hat.
  destruct (grafted_origin _ _ _ _ Hgraft _ _ Hat) as [(m & Hm & <-)|(-> & Hpre & _)];
    [by apply IH|done].
Qed.

(** * The claims *)

(** ** The parser *)

(** C5: [treeReferenceFromString] returns a reference exactly when the line
    splits into two parts on [;], that is when the line holds the separator
    once; for any other number of parts it returns the error whose message
    ends with the line. *)
Theorem treeReferenceFromString_two_parts (text : string) :
  length (Split text semicolon) = S (countByte semicolon text)
  ∧ match treeReferenceFromString text with
    | Ok ref =>
        length (Split text semicolon) = 2%nat
        ∧ ∃ path, Split text semicolon = [MedicalSubjectHeading ref; path]
                  ∧ TreeLocation ref = Split path dot
    | Err e =>
        length (Split text semicolon) ≠ 2%nat
        ∧ e = "malformed tree reference " +:+ text
    | Panic _ => False
    end.
Proof.
  split; [apply Split_length|].
  destruct (treeReferenceFromString text) as [ref|e|msg] eqn:Hparse.
  - apply treeReferenceFromString_Ok in Hparse as (heading & path & Hsplit & ->).
    rewrite Hsplit. split; [done|]. by exists path.
  - by apply treeReferenceFromString_Err in Hparse.
  - by apply treeReferenceFromString_no_panic in Hparse.
Qed.

(** C8: for a line that splits into two parts on [;], the parse succeeds, the
    heading returned is the part before the separator, and the segments
    returned, joined with [.], are the part after it: heading, separator and
    joined segments spell the line again. *)
Theorem treeReferenceFromString_roundtrip (text : string) :
  length (Split text semicolon) = 2%nat →
  ∃ heading path ref,
    Split text semicolon = [heading; path]
    ∧ text = heading +:+ ";" +:+ path
    ∧ treeReferenceFromString text = Ok ref
    ∧ MedicalSubjectHeading ref = heading
    ∧ Join (TreeLocation ref) "." = path.
Proof.
  intros Hlen.
  destruct (Split text semicolon) as [|heading [|path [|? ?]]] eqn:Hsplit; try done.
  exists heading, path, (mkTreeReference heading (Split path dot)).
  split_and!; [done| | |done|apply Join_Split].
  - rewrite <- (Join_Split semicolon text), Hsplit. done.
  - apply treeReferenceFromString_Ok. eauto.
Qed.

Lemma treeReferenceFromString_roundtrip_witness :
  length (Split "Breast;A01.236" semicolon) = 2%nat
  ∧ ∃ heading path ref,
      Split "Breast;A01.236" semicolon = [heading; path]
      ∧ "Breast;A01.236" = heading +:+ ";" +:+ path
      ∧ treeReferenceFromString "Breast;A01.236" = Ok ref
      ∧ MedicalSubjectHeading ref = heading
      ∧ Join (TreeLocation ref) "." = path.
Proof.
  split; [reflexivity|].
  apply (treeReferenceFromString_roundtrip "Breast;A01.236"). reflexivity.
Defined.

(** ** Depth *)

(** C7: in a built index, [Depth] of a term is the number of segments of the
    location of the first line filed under the lower-cased term, and 0 when no
    line was filed under it, which is when the key is absent. *)
Theorem MeSHDepth_first_location (reader : Reader) (t : MeSHTree) (term : string) :
  MeSHTreeFromReader reader = Ok t →
  match recordedPaths (parsedLines (lines reader)) (ToLower term) with
  | [] => Locations t !! ToLower term = None ∧ MeSHDepth t term = 0
  | first :: others =>
      Locations t !! ToLower term = Some (first :: others)
      ∧ MeSHDepth t term = Z.of_nat (length first)
  end.
Proof.
  intros Hbuilt. pose proof (built_Locations _ _ Hbuilt (ToLower term)) as Hloc.
  unfold MeSHDepth, recorded in *. rewrite Hloc.
  by destruct (recordedPaths (parsedLines (lines reader)) (ToLower term)).
Qed.

Lemma MeSHDepth_first_location_witness :
  MeSHTreeFromReader scenario = Ok scenarioTree
  ∧ Locations scenarioTree !! ToLower "C" = Some [["1"; "1"; "1"]]
  ∧ MeSHDepth scenarioTree "C" = 3.
Proof.
  split; [vm_compute; reflexivity|].
  apply (MeSHDepth_first_location scenario scenarioTree "C").
  vm_compute; reflexivity.
Defined.

(** ** Explode *)

Lemma foldl_app_join {A B} (f : A → list B) (l : list A) (acc : list B) :
  foldl (fun terms x => terms ++ f x) acc l = acc ++ mjoin (f <$> l).
Proof.
  revert acc. induction l as [|x l IH]; intros acc; simpl.
  - by rewrite app_nil_r.
  - by rewrite IH, app_assoc.
Qed.

(** The headings of the part of the tree at a location are those of the nodes
    strictly below the location. *)
Lemma elem_of_Terms_At (t : tree) (p : list string) (h : string) :
  h ∈ Terms (At t p) ↔
  ∃ q n, q ≠ [] ∧ nodeAt t (p ++ q) = Some n ∧ MedicalSubjectHeading (Reference n) = h.
Proof.
  rewrite elem_of_Terms. unfold headingAt. split.
  - intros (q & n & Hat & Hh). assert (q ≠ []) as Hq by (by destruct q).
    exists q, n. by rewrite nodeAt_app.
  - intros (q & n & Hq & Hat & Hh). exists q, n. by rewrite <- nodeAt_app.
Qed.

(** C1, as the code has it: [Explode] returns, for each location filed under
    the lower-cased term, in the order of the lines and without removing
    duplicates, the headings of the nodes strictly below the node that the
    location resolves to, one heading for each of these nodes, and not the
    heading of that node; a location that resolves to a node without children
    contributes nothing. *)
Theorem Explode_strict_descendants (reader : Reader) (t : MeSHTree) (term : string) :
  MeSHTreeFromReader reader = Ok t →
  Explode t term
  = mjoin ((fun p => Terms (At (Tree t) p))
             <$> recordedPaths (parsedLines (lines reader)) (ToLower term))
  ∧ (∀ p h, h ∈ Terms (At (Tree t) p) ↔
            ∃ q n, q ≠ [] ∧ nodeAt (Tree t) (p ++ q) = Some n
                   ∧ MedicalSubjectHeading (Reference n) = h)
  ∧ (∀ p, length (Terms (At (Tree t) p)) = treeSize (At (Tree t) p))
  ∧ (∀ p n, nodeAt (Tree t) p = Some n → Children n = ∅ → Terms (At (Tree t) p) = []).
Proof.
  intros Hbuilt. split_and!.
  - unfold Explode. rewrite (built_Locations _ _ Hbuilt). unfold recorded.
    destruct (recordedPaths (parsedLines (lines reader)) (ToLower term)) as [|p ps] eqn:E;
      [done|].
    by rewrite foldl_app_join.
  - intros p h. apply elem_of_Terms_At.
  - intros p. apply length_Terms.
  - intros p n Hat Hleaf. rewrite At_nodeAt by (by destruct p).
    rewrite Hat. simpl. rewrite Hleaf. apply Terms_empty.
Qed.

Lemma Explode_strict_descendants_witness :
  MeSHTreeFromReader scenario = Ok scenarioTree
  ∧ Explode scenarioTree "A"
    = mjoin ((fun p => Terms (At (Tree scenarioTree) p))
               <$> recordedPaths (parsedLines (lines scenario)) (ToLower "A"))
  ∧ (∀ p h, h ∈ Terms (At (Tree scenarioTree) p) ↔
            ∃ q n, q ≠ [] ∧ nodeAt (Tree scenarioTree) (p ++ q) = Some n
                   ∧ MedicalSubjectHeading (Reference n) = h)
  ∧ (∀ p, length (Terms (At (Tree scenarioTree) p))
          = treeSize (At (Tree scenarioTree) p))
  ∧ (∀ p n, nodeAt (Tree scenarioTree) p = Some n → Children n = ∅ →
            Terms (At (Tree scenarioTree) p) = []).
Proof.
  split; [vm_compute; reflexivity|].
  apply (Explode_strict_descendants scenario scenarioTree "A").
  vm_compute; reflexivity.
Defined.

(** C1, as stated, fails on a leaf: built from the single line [A;1], the term
    [A] has the single location [1], which resolves to a node without
    children, and [Explode] returns no heading at all, not [A]. *)
Lemma Explode_leaf_counterexample :
  ∃ t n, MeSHTreeFromReader (mkReader ["A;1"] None) = Ok t
         ∧ Locations t !! ToLower "A" = Some [["1"]]
         ∧ nodeAt (Tree t) ["1"] = Some n
         ∧ MedicalSubjectHeading (Reference n) = "A"
         ∧ Children n = ∅
         ∧ Explode t "A" = []
         ∧ Explode t "A" ≠ ["A"].
Proof.
  do 2 eexists. split_and!; [vm_compute; reflexivity..|]. vm_compute. discriminate.
Qed.

(** ** Locations resolve when the lines come parents first *)

Lemma parentFirst_snoc (refs : list TreeReference) (ref : TreeReference)
    (seen : list (list string)) :
  parentFirst seen (refs ++ [ref]) = true →
  parentFirst seen refs = true
  ∧ ((length (TreeLocation ref) ≤ 1)%nat
     ∨ parentPath (TreeLocation ref) ∈ seen
     ∨ parentPath (TreeLocation ref) ∈ TreeLocation <$> refs).
Proof.
  revert seen. induction refs as [|r refs IH]; intros seen; simpl.
  - rewrite andb_true_r. intros [Hlen|Hin]%orb_true_iff; (split; [done|]).
    + left. by apply bool_decide_eq_true in Hlen.
    + right. left. by apply bool_decide_eq_true in Hin.
  - intros [Hr Hrest]%andb_true_iff. rewrite Hr. simpl.
    destruct (IH _ Hrest) as [Hrefs [Hlen|[Hin|Hin]]]; rewrite Hrefs; (split; [done|]).
    + by left.
    + apply elem_of_cons in Hin as [->|Hin]; right; [right|by left].
      apply elem_of_cons. by left.
    + right. right. apply elem_of_cons. by right.
Qed.

Lemma built_parentFirst (reader : Reader) (t : MeSHTree) :
  MeSHTreeFromReader reader = Ok t →
  parentFirst [] (parsedLines (lines reader)) = true →
  ∀ ref, ref ∈ parsedLines (lines reader) → is_Some (nodeAt (Tree t) (TreeLocation ref)).
Proof.
  apply (built_ind (fun t refs =>
    parentFirst [] refs = true → ∀ ref, ref ∈ refs → is_Some (nodeAt (Tree t) (TreeLocation ref)))).
  { intros _ ref Hin. by apply elem_of_nil in Hin. }
  intros t0 refs ref t' IH _ [Hgraft _]%addReference_Ok Hfirst r Hin.
  apply parentFirst_snoc in Hfirst as [Hfirst Hparent]. specialize (IH Hfirst).
  apply elem_of_app in Hin as [Hin|Hin].
  2: apply list_elem_of_singleton in Hin as ->.
  - destruct (IH r Hin) as [m Hm].
    destruct (grafted_preserves _ _ _ _ Hgraft _ _ Hm) as (m' & Hm' & _). eauto.
  - destruct (grafted_parent _ _ _ _ Hgraft) as (m' & Hm' & _); [|eauto].
    destruct Hparent as [Hlen|[Hin|Hin]]; [by left|by apply elem_of_nil in Hin|right].
    apply list_elem_of_fmap in Hin as (r & -> & Hr). by apply IH.
Qed.

(** C3, as the code has it: when the lines come parents first (the location
    of every line has one segment or extends the location of an earlier line
    by one segment), every location of the index of a built tree resolves,
    walking its segments in order from the root, to exactly one node. *)
Theorem locations_resolve_parents_first (reader : Reader) (t : MeSHTree) :
  MeSHTreeFromReader reader = Ok t →
  parentFirst [] (parsedLines (lines reader)) = true →
  ∀ key ps p, Locations t !! key = Some ps → p ∈ ps →
    ∃ n, nodeAt (Tree t) p = Some n ∧ ∀ n', nodeAt (Tree t) p = Some n' → n' = n.
Proof.
  intros Hbuilt Hfirst key ps p Hkey Hp.
  rewrite (built_Locations _ _ Hbuilt) in Hkey.
  apply recorded_Some in Hkey as [_ <-].
  apply elem_of_recordedPaths in Hp as (ref & Hin & _ & <-).
  destruct (built_parentFirst _ _ Hbuilt Hfirst ref Hin) as [n Hn].
  exists n. split; [done|]. intros n' Hn'. congruence.
Qed.

Lemma locations_resolve_parents_first_witness :
  MeSHTreeFromReader scenario = Ok scenarioTree
  ∧ parentFirst [] (parsedLines (lines scenario)) = true
  ∧ ∀ key ps p, Locations scenarioTree !! key = Some ps → p ∈ ps →
      ∃ n, nodeAt (Tree scenarioTree) p = Some n
           ∧ ∀ n', nodeAt (Tree scenarioTree) p = Some n' → n' = n.
Proof.
  split; [vm_compute; reflexivity|]. split; [vm_compute; reflexivity|].
  apply (locations_resolve_parents_first scenario scenarioTree);
    vm_compute; reflexivity.
Defined.

(** C3, as stated, fails: built from the single line [A;1.2], the index files
    the location [1.2] under [a], the tree holds one node, under the segment
    [1], and walking [1] then [2] from the root reaches no node. *)
Lemma location_unresolved_counterexample :
  ∃ t, MeSHTreeFromReader (mkReader ["A;1.2"] None) = Ok t
       ∧ Locations t !! "a" = Some [["1"; "2"]]
       ∧ nodeAt (Tree t) ["1"; "2"] = None
       ∧ ¬ ∃ n, nodeAt (Tree t) ["1"; "2"] = Some n.
Proof.
  eexists. split_and!; [vm_compute; reflexivity..|].
  intros [n Hn]. vm_compute in Hn. discriminate.
Qed.

(** ** Parents *)

(** When [stored] is long enough, the comparison does not panic and tells
    whether [loc] is what [stored] holds from index [i] on. *)
Lemma sameLocation_Ok (loc stored : list string) (i : nat) :
  (i + length loc ≤ length stored)%nat →
  sameLocation i loc stored = Ok (bool_decide (loc `prefix_of` drop i stored)).
Proof.
  revert i. induction loc as [|v rest IH]; intros i Hlen.
  - simpl sameLocation. by rewrite bool_decide_eq_true_2 by apply prefix_nil.
  - simpl in Hlen. simpl sameLocation.
    destruct (lookup_lt_is_Some_2 stored i) as [w Hw]; [lia|]. rewrite Hw.
    rewrite (drop_S _ _ _ Hw). case_decide as Hne.
    + rewrite bool_decide_eq_false_2; [done|]. by intros ?%prefix_cons_inv_1.
    + subst w. rewrite IH by lia. f_equal.
      apply bool_decide_ext. split; [apply prefix_cons|apply prefix_cons_inv_2].
Qed.

Lemma parentsAmong_Ok (loc : list string) (entries : list (string * Node))
    (parents : list string) :
  Forall (fun entry : string * Node =>
            (length loc ≤ length (TreeLocation (Reference entry.2)))%nat) entries →
  parentsAmong loc entries parents
  = Ok (parents ++ (headingOf <$>
          filter (fun entry : string * Node =>
                    loc `prefix_of` TreeLocation (Reference entry.2)) entries)).
Proof.
  revert parents. induction entries as [|[s parent] entries IH]; intros parents Hall.
  - simpl. by rewrite app_nil_r.
  - inversion_clear Hall as [|? ? Hlen Hrest]. simpl in *.
    rewrite sameLocation_Ok by done. rewrite drop_0, IH by done.
    rewrite filter_cons. simpl. case_bool_decide as Hpre.
    + rewrite decide_True by done. by rewrite <- app_assoc.
    + by rewrite decide_False by done.
Qed.

Lemma storesPrefix_entries (t : tree) (p : list string) :
  storesPrefix t → (2 < length p)%nat →
  Forall (fun entry : string * Node =>
            (length (parentPath p) ≤ length (TreeLocation (Reference entry.2)))%nat)
         (map_to_list (At t (take (length p - 2) p))).
Proof.
  intros Hinv Hlen. apply Forall_forall. intros [s n] Hin%elem_of_map_to_list.
  rewrite At_lookup in Hin. apply Hinv, prefix_length in Hin.
  unfold parentPath. simpl. rewrite length_app, length_take in *. simpl in *. lia.
Qed.

Lemma parentsOf_Ok (t : tree) (locations : list (list string)) (parents : list string) :
  storesPrefix t →
  parentsOf t locations parents = Ok (parents ++ mjoin (selectedParents t <$> locations)).
Proof.
  intros Hinv. revert parents.
  induction locations as [|location rest IH]; intros parents; simpl.
  - by rewrite app_nil_r.
  - unfold selectedParents at 1. case_decide as Hlen.
    + fold (parentPath location).
      rewrite parentsAmong_Ok by (by apply storesPrefix_entries).
      by rewrite IH, <- app_assoc.
    + by rewrite IH.
Qed.

Lemma selectedParents_short (t : tree) (p : list string) :
  (length p ≤ 2)%nat → selectedParents t p = [].
Proof. intros Hlen. unfold selectedParents. rewrite decide_False; [done|lia]. Qed.

Lemma filter_ext_elem {A} (P Q : A → Prop) `{!∀ x, Decision (P x)}
    `{!∀ x, Decision (Q x)} (l : list A) :
  (∀ x, x ∈ l → P x ↔ Q x) → filter P l = filter Q l.
Proof.
  induction l as [|x l IH]; intros Hext; [done|].
  rewrite !filter_cons.
  rewrite IH by (intros y Hy; apply Hext; by apply elem_of_cons; right).
  destruct (Hext x) as [HPQ HQP]; [apply elem_of_cons; by left|].
  destruct (decide (P x)), (decide (Q x)); tauto.
Qed.

(** The entries of a map under one key: the entry of the key, if there is one. *)
Lemma map_to_list_filter_key (m : tree) (k : string) :
  filter (fun entry : string * Node => entry.1 = k) (map_to_list m)
  = from_option (fun n => [(k, n)]) [] (m !! k).
Proof.
  induction m as [|s n m Hs Hfirst IH] using map_first_key_ind.
  - by rewrite map_to_list_empty, lookup_empty.
  - rewrite map_to_list_insert_first_key, filter_cons by done. simpl.
    destruct (decide (s = k)) as [->|Hne].
    + rewrite lookup_insert_eq, IH, Hs. done.
    + by rewrite lookup_insert_ne, IH.
Qed.

Lemma parentPath_snoc (p : list string) :
  (2 < length p)%nat →
  ∃ k, parentPath p = take (length p - 2) p ++ [k].
Proof.
  intros Hlen. unfold parentPath.
  destruct (lookup_lt_is_Some_2 p (length p - 2)) as [k Hk]; [lia|].
  exists k. replace (length p - 1)%nat with (S (length p - 2)) by lia.
  by apply take_S_r.
Qed.

(** In a tree whose nodes store a location that begins with their own path,
    the comparison of [Parents] selects the node one segment above the
    location and no other entry, whatever the order of the entries. *)
Lemma selectedParents_parentAbove (t : tree) (p : list string) :
  storesPrefix t → selectedParents t p = parentAbove t p.
Proof.
  intros Hinv. unfold selectedParents, parentAbove. case_decide as Hlen; [|done].
  destruct (parentPath_snoc p Hlen) as [k Hk]. rewrite Hk.
  rewrite (filter_ext_elem _ (fun entry : string * Node => entry.1 = k)).
  - rewrite map_to_list_filter_key, At_lookup.
    by destruct (nodeAt t (take (length p - 2) p ++ [k])).
  - intros [s n] Hin%elem_of_map_to_list. rewrite At_lookup in Hin. simpl.
    apply Hinv in Hin. split.
    + intros Hpre.
      destruct (prefix_weak_total _ _ _ Hpre Hin) as [Hle|Hle];
        apply prefix_length_eq in Hle; rewrite ?length_app; simpl; try lia;
        by apply app_inj_1 in Hle as [_ [= ->]].
    + by intros ->.
Qed.

(** What [Parents] computes in a built index: for each location [p] filed
    under the lower-cased term that has more than two segments, the headings
    of the entries of the tree at [p] without its last two segments whose
    stored location begins with [p] without its last segment (the loop
    compares index by index over the elements of the latter only, and does
    not compare the lengths); locations of at most two segments contribute
    nothing.  The entries selected for a location are at most one, the node
    one segment above it, so the result does not depend on the order in which
    the entries of a map are visited. *)
Theorem Parents_selected (reader : Reader) (t : MeSHTree) (term : string) :
  MeSHTreeFromReader reader = Ok t →
  Parents t term
  = Ok (mjoin (selectedParents (Tree t)
                 <$> recordedPaths (parsedLines (lines reader)) (ToLower term)))
  ∧ (Forall (fun p => (length p ≤ 2)%nat)
            (recordedPaths (parsedLines (lines reader)) (ToLower term)) →
     Parents t term = Ok [])
  ∧ Parents t term
    = Ok (mjoin (parentAbove (Tree t)
                   <$> recordedPaths (parsedLines (lines reader)) (ToLower term))).
Proof.
  intros Hbuilt. pose proof (built_storesPrefix _ _ Hbuilt) as Hinv.
  assert (Parents t term
          = Ok (mjoin (selectedParents (Tree t)
                         <$> recordedPaths (parsedLines (lines reader)) (ToLower term))))
    as Heq.
  { unfold Parents. rewrite (built_Locations _ _ Hbuilt). unfold recorded.
    destruct (recordedPaths (parsedLines (lines reader)) (ToLower term)) as [|p ps] eqn:E;
      [done|].
    by rewrite parentsOf_Ok. }
  split_and!; [done| |].
  - intros Hshort. rewrite Heq. f_equal.
    apply join_nil_2, Forall_fmap. eapply Forall_impl; [exact Hshort|].
    intros p Hp. by apply selectedParents_short.
  - rewrite Heq. do 2 f_equal. apply list_fmap_ext. intros _ p _.
    by apply selectedParents_parentAbove.
Qed.

Lemma Parents_selected_witness :
  MeSHTreeFromReader scenario = Ok scenarioTree
  ∧ Parents scenarioTree "C" = Ok ["B"]
  ∧ (Forall (fun p => (length p ≤ 2)%nat)
            (recordedPaths (parsedLines (lines scenario)) (ToLower "C")) →
     Parents scenarioTree "C" = Ok [])
  ∧ Parents scenarioTree "C" = Ok ["B"].
Proof.
  split; [vm_compute; reflexivity|].
  apply (Parents_selected scenario scenarioTree "C"). vm_compute; reflexivity.
Defined.

(** The entries with the same location are among those that the loop of
    [Parents] selects; the loop also selects the entries whose stored location
    is longer. *)
Lemma sameLocationParents_selected (t : tree) (p : list string) (h : string) :
  h ∈ sameLocationParents t p → h ∈ selectedParents t p.
Proof.
  unfold sameLocationParents, selectedParents. case_decide; [|done].
  rewrite !list_elem_of_fmap. intros (entry & -> & [Heq Hin]%list_elem_of_filter).
  exists entry. split; [done|]. apply list_elem_of_filter. split; [|done].
  by rewrite Heq.
Qed.

(** C4, on the code: built from the lines [A;1], [B;1.9.9], [C;1.2.3], the
    tree holds the node of [C] under the path [1.2], with the stored location
    [1.2.3].  For the location [1.2.3] of [C] no entry of the tree at [1]
    stores the location [1.2], so the parents that the claim describes are
    none; the loop of [Parents] compares the two elements of [1.2] only,
    finds them at the start of [1.2.3], and returns [C] as a parent of
    itself.  The comment of the loop says "Test that the locations are the
    same"; the lengths are never compared. *)
Theorem Parents_accepts_longer_location :
  MeSHTreeFromReader orphans = Ok orphansTree
  ∧ Locations orphansTree !! ToLower "C" = Some [["1"; "2"; "3"]]
  ∧ (∃ n, At (Tree orphansTree) ["1"] !! "2" = Some n
          ∧ Reference n = mkTreeReference "C" ["1"; "2"; "3"]
          ∧ sameLocation 0 ["1"; "2"] (TreeLocation (Reference n)) = Ok true
          ∧ TreeLocation (Reference n) ≠ ["1"; "2"])
  ∧ sameLocationParents (Tree orphansTree) ["1"; "2"; "3"] = []
  ∧ selectedParents (Tree orphansTree) ["1"; "2"; "3"] = ["C"]
  ∧ Parents orphansTree "C" = Ok ["C"].
Proof.
  split; [vm_compute; reflexivity|]. split; [vm_compute; reflexivity|].
  split; [|split_and!; vm_compute; reflexivity].
  eexists. split_and!; [vm_compute; reflexivity..|]. vm_compute. discriminate.
Qed.

(** C10: in a built index, a node reached by walking [d] segments from the
    root stores a location of at least [d] segments; so for a location [p] of
    more than two segments, every candidate of [Parents], an entry of the tree
    at [p] without its last two segments, stores a location that the
    comparison with [p] without its last segment never reads past the end,
    and [Parents] returns without a panic for every term. *)
Theorem built_stored_location_long_enough (reader : Reader) (t : MeSHTree) :
  MeSHTreeFromReader reader = Ok t →
  (∀ q n, nodeAt (Tree t) q = Some n →
          (length q ≤ length (TreeLocation (Reference n)))%nat)
  ∧ (∀ p s n, (2 < length p)%nat →
        At (Tree t) (take (length p - 2) p) !! s = Some n →
        (length (parentPath p) ≤ length (TreeLocation (Reference n)))%nat
        ∧ ∃ eq, sameLocation 0 (parentPath p) (TreeLocation (Reference n)) = Ok eq)
  ∧ (∀ term, ∃ parents, Parents t term = Ok parents).
Proof.
  intros Hbuilt. pose proof (built_storesPrefix _ _ Hbuilt) as Hinv. split_and!.
  - intros q n Hat. by apply prefix_length, Hinv.
  - intros p s n Hlen Hs.
    pose proof (storesPrefix_entries _ p Hinv Hlen) as Hall.
    rewrite Forall_forall in Hall.
    specialize (Hall (s, n) (proj2 (elem_of_map_to_list _ _ _) Hs)). simpl in Hall.
    split; [done|]. eexists. by apply sameLocation_Ok.
  - intros term. unfold Parents. destruct (Locations t !! ToLower term); [|eauto].
    rewrite parentsOf_Ok by done. eauto.
Qed.

Lemma built_stored_location_long_enough_witness :
  MeSHTreeFromReader scenario = Ok scenarioTree
  ∧ (∀ q n, nodeAt (Tree scenarioTree) q = Some n →
            (length q ≤ length (TreeLocation (Reference n)))%nat)
  ∧ (∀ p s n, (2 < length p)%nat →
        At (Tree scenarioTree) (take (length p - 2) p) !! s = Some n →
        (length (parentPath p) ≤ length (TreeLocation (Reference n)))%nat
        ∧ ∃ eq, sameLocation 0 (parentPath p) (TreeLocation (Reference n)) = Ok eq)
  ∧ (∀ term, ∃ parents, Parents scenarioTree term = Ok parents).
Proof.
  split; [vm_compute; reflexivity|].
  apply (built_stored_location_long_enough scenario scenarioTree).
  vm_compute; reflexivity.
Defined.

(** ** Reference *)

Lemma built_Locations_wellFormed (reader : Reader) (t : MeSHTree)
    (key : string) (ps : list (list string)) :
  MeSHTreeFromReader reader = Ok t →
  Locations t !! key = Some ps →
  Forall (fun p => ∃ ref, wellFormed ref
                          ∧ ToLower (MedicalSubjectHeading ref) = key
                          ∧ TreeLocation ref = p) ps
  ∧ ps ≠ [].
Proof.
  intros Hbuilt Hkey. rewrite (built_Locations _ _ Hbuilt) in Hkey.
  apply recorded_Some in Hkey as [Hne <-]. split; [|done].
  apply Forall_forall. intros p (ref & Hin & Hh & Hp)%elem_of_recordedPaths.
  exists ref. split_and!; [|done..].
  pose proof (parsedLines_wellFormed (lines reader)) as Hall.
  rewrite Forall_forall in Hall. by apply Hall.
Qed.

(** The line that [Reference] builds from a term and a location parses back
    to the term and the location. *)
Lemma treeReferenceFromString_rebuilt (term : string) (p : list string) :
  freeOf semicolon term → p ≠ [] →
  Forall (freeOf semicolon) p → Forall (freeOf dot) p →
  treeReferenceFromString (term +:+ ";" +:+ Join p ".") = Ok (mkTreeReference term p).
Proof.
  intros Hterm Hp Hsemi Hdot. apply treeReferenceFromString_Ok.
  exists term, (Join p "."). split.
  - change (term +:+ ";" +:+ Join p ".") with (term +:+ String semicolon (Join p ".")).
    rewrite Split_app by done. f_equal. apply Split_freeOf_id.
    by apply (countByte_Join semicolon p dot).
  - f_equal. symmetry. by apply (Split_Join dot).
Qed.

Lemma referencesOf_Ok (term : string) (locations : list (list string))
    (references : list TreeReference) :
  freeOf semicolon term →
  Forall (fun p => p ≠ [] ∧ Forall (freeOf semicolon) p ∧ Forall (freeOf dot) p)
         locations →
  referencesOf term locations references
  = Ok (references ++ (mkTreeReference term <$> locations)).
Proof.
  intros Hterm Hall. revert references.
  induction Hall as [|p ps (Hp & Hsemi & Hdot) _ IH]; intros references; simpl.
  - by rewrite app_nil_r.
  - rewrite treeReferenceFromString_rebuilt by done.
    by rewrite IH, <- app_assoc.
Qed.

(** C9: in a built index, no key and no segment of a stored location holds
    the separator [;], so for every term [Reference] either finds no entry and
    returns the empty (nil) sequence, or parses back, for every location of
    the entry, the line it rebuilds, and returns the term with each location:
    the panic is never reached. *)
Theorem MeSHReference_no_panic (reader : Reader) (t : MeSHTree) (term : string) :
  MeSHTreeFromReader reader = Ok t →
  (∀ key ps, Locations t !! key = Some ps →
     freeOf semicolon key ∧ Forall (Forall (freeOf semicolon)) ps)
  ∧ match Locations t !! ToLower term with
    | None => MeSHReference t term = Ok []
    | Some ps =>
        Forall (fun p => treeReferenceFromString (term +:+ ";" +:+ Join p ".")
                         = Ok (mkTreeReference term p)) ps
        ∧ MeSHReference t term = Ok (mkTreeReference term <$> ps)
    end.
Proof.
  intros Hbuilt. split.
  - intros key ps Hkey.
    destruct (built_Locations_wellFormed _ _ _ _ Hbuilt Hkey) as [Hall Hne]. split.
    + destruct ps as [|p ps]; [done|]. inversion_clear Hall as [|? ? (ref & Hwf & <- & _) _].
      unfold freeOf. rewrite ToLower_semicolon. apply Hwf.
    + eapply Forall_impl; [exact Hall|]. intros p (ref & Hwf & _ & <-). apply Hwf.
  - unfold MeSHReference. destruct (Locations t !! ToLower term) as [ps|] eqn:Hkey; [|done].
    destruct (built_Locations_wellFormed _ _ _ _ Hbuilt Hkey) as [Hall Hne].
    assert (freeOf semicolon term) as Hterm.
    { destruct ps as [|p ps]; [done|]. inversion_clear Hall as [|? ? (ref & Hwf & Hh & _) _].
      unfold freeOf. rewrite <- ToLower_semicolon, <- Hh, ToLower_semicolon. apply Hwf. }
    assert (Forall (fun p => p ≠ [] ∧ Forall (freeOf semicolon) p ∧ Forall (freeOf dot) p) ps)
      as Hps.
    { eapply Forall_impl; [exact Hall|]. intros p (ref & Hwf & _ & <-).
      split_and!; apply Hwf. }
    split.
    + eapply Forall_impl; [exact Hps|]. intros p (? & ? & ?).
      by apply treeReferenceFromString_rebuilt.
    + by rewrite referencesOf_Ok.
Qed.

Lemma MeSHReference_no_panic_witness :
  MeSHTreeFromReader scenario = Ok scenarioTree
  ∧ (∀ key ps, Locations scenarioTree !! key = Some ps →
       freeOf semicolon key ∧ Forall (Forall (freeOf semicolon)) ps)
  ∧ Forall (fun p => treeReferenceFromString ("B" +:+ ";" +:+ Join p ".")
                     = Ok (mkTreeReference "B" p)) [["1"; "1"]]
  ∧ MeSHReference scenarioTree "B" = Ok [mkTreeReference "B" ["1"; "1"]].
Proof.
  split; [vm_compute; reflexivity|].
  apply (MeSHReference_no_panic scenario scenarioTree "B"). vm_compute; reflexivity.
Defined.

(** ** The queries on the small vocabulary *)

(** On the lines [A;1], [B;1.1], [C;1.1.1]: [b] is contained, [C] is at depth
    3, [A] explodes to the headings beneath it, and the parent of [C] is [B]. *)
Lemma scenario_queries :
  Contains scenarioTree "b" = true
  ∧ MeSHDepth scenarioTree "C" = 3
  ∧ Explode scenarioTree "A" = ["B"; "C"]
  ∧ Explode scenarioTree "C" = []
  ∧ Parents scenarioTree "C" = Ok ["B"]
  ∧ Parents scenarioTree "A" = Ok [].
Proof. split_and!; vm_compute; reflexivity. Qed.

(** When the lines do not come parents first, a node can store a location
    longer than its own path, and the comparison of [Parents], which runs over
    the elements of the shorter location only, still selects it: here the node
    under [1.2] stores [1.2.3.4] and is returned as the parent of [1.2.3]. *)
Lemma Parents_longer_stored_location :
  ∃ t n, MeSHTreeFromReader (mkReader ["A;1"; "B;1.2.3.4"; "C;1.2.3"] None) = Ok t
         ∧ nodeAt (Tree t) ["1"; "2"] = Some n
         ∧ Reference n = mkTreeReference "B" ["1"; "2"; "3"; "4"]
         ∧ Parents t "C" = Ok ["B"].
Proof. do 2 eexists. split_and!; vm_compute; reflexivity. Qed.

(** ** Lines that repeat a location, and malformed lines *)

Lemma scanLines_app (pre post : list string) (t : MeSHTree) :
  scanLines t (pre ++ post)
  = match scanLines t pre with
    | Ok t' => scanLines t' post
    | Err e => Err e
    | Panic msg => Panic msg
    end.
Proof.
  revert t. induction pre as [|text pre IH]; intros t; simpl; [done|].
  destruct (treeReferenceFromString text) as [ref| |]; [|done..].
  destruct (addReference t ref) as [t'| |]; [apply IH|done..].
Qed.

(** First write wins: a line that is read without a panic leaves every node
    of the tree where it was, with its reference and its depth. *)
Lemma addReference_keeps_nodes (t t' : MeSHTree) (ref : TreeReference) :
  addReference t ref = Ok t' →
  ∀ q m, nodeAt (Tree t) q = Some m →
    ∃ m', nodeAt (Tree t') q = Some m' ∧ Reference m' = Reference m ∧ Depth m' = Depth m.
Proof. intros [Hgraft _]%addReference_Ok. by eapply grafted_preserves. Qed.

(** A well-formed line whose location resolves to a node of the tree built
    from the lines before it makes the loader panic. *)
Lemma scanLines_resolved_location_panics (pre post : list string) (text : string)
    (t t' : MeSHTree) (ref : TreeReference) :
  scanLines t pre = Ok t' →
  treeReferenceFromString text = Ok ref →
  is_Some (nodeAt (Tree t') (TreeLocation ref)) →
  scanLines t (pre ++ text :: post) = Panic indexOutOfRange.
Proof.
  intros Hpre Hparse Hsome. rewrite scanLines_app, Hpre. simpl. rewrite Hparse.
  assert (addReference t' ref = Panic indexOutOfRange) as ->; [|done].
  apply addReference_Panic. by right.
Qed.

(** A malformed line that is reached ends the scan with its error. *)
Lemma scanLines_malformed (pre post : list string) (text : string) (t t' : MeSHTree) :
  scanLines t pre = Ok t' →
  length (Split text semicolon) ≠ 2%nat →
  scanLines t (pre ++ text :: post) = Err (malformed text).
Proof.
  intros Hpre Hbad. rewrite scanLines_app, Hpre. simpl.
  assert (treeReferenceFromString text = Err (malformed text)) as ->; [|done].
  by apply treeReferenceFromString_Err.
Qed.

(** No index is returned when some line is malformed. *)
Lemma MeSHTreeFromReader_all_or_nothing (reader : Reader) (text : string) (t : MeSHTree) :
  text ∈ lines reader →
  length (Split text semicolon) ≠ 2%nat →
  MeSHTreeFromReader reader ≠ Ok t.
Proof.
  intros Hin Hbad [Hscan _]%MeSHTreeFromReader_Ok.
  apply list_elem_of_split in Hin as (pre & post & Hlines).
  rewrite Hlines, scanLines_app in Hscan.
  destruct (scanLines emptyMeSHTree pre) as [t'| |]; [|done..]. simpl in Hscan.
  assert (treeReferenceFromString text = Err (malformed text)) as Herr
    by (by apply treeReferenceFromString_Err).
  by rewrite Herr in Hscan.
Qed.

(** C2, on the code: the lines [A;1] and [B;1] are well formed and carry the
    same location; reading the second one calls [addChild] with the empty
    remainder of the location, whose first element does not exist, and the
    loader panics instead of returning an index.  The same happens one level
    down, with [B;1.2] and [C;1.2] under [A;1]. *)
Theorem duplicate_location_panics :
  treeReferenceFromString "A;1" = Ok (mkTreeReference "A" ["1"])
  ∧ treeReferenceFromString "B;1" = Ok (mkTreeReference "B" ["1"])
  ∧ MeSHTreeFromReader (mkReader ["A;1"; "B;1"] None) = Panic indexOutOfRange
  ∧ MeSHTreeFromReader (mkReader ["A;1"; "B;1.2"; "C;1.2"] None) = Panic indexOutOfRange.
Proof. split_and!; vm_compute; reflexivity. Qed.

(** C6, on the code: in the lines [A;1], [B;1], [X] the first malformed line
    is the third one, but the loader panics on the second line, which repeats
    the location of the first, and the error of [X] is never returned. *)
Theorem malformed_after_duplicate_panics :
  treeReferenceFromString "X" = Err (malformed "X")
  ∧ MeSHTreeFromReader (mkReader ["A;1"; "B;1"; "X"] None) = Panic indexOutOfRange
  ∧ MeSHTreeFromReader (mkReader ["A;1"; "B;1"; "X"] None) ≠ Err (malformed "X").
Proof. split_and!; [vm_compute; reflexivity..|]. vm_compute. discriminate. Qed.

(** * Further properties of the code *)

(** ** The parser *)

(** A reference that [treeReferenceFromString] returns has at least one
    segment, so [ref.TreeLocation[0]] in the loader is in range; its heading
    and its segments hold no [;], and its segments hold no [.]. *)
Theorem parsed_reference_shape (text : string) (ref : TreeReference) :
  treeReferenceFromString text = Ok ref →
  (0 < length (TreeLocation ref))%nat
  ∧ freeOf semicolon (MedicalSubjectHeading ref)
  ∧ Forall (freeOf semicolon) (TreeLocation ref)
  ∧ Forall (freeOf dot) (TreeLocation ref).
Proof.
  intros [Hh Hsemi Hdot Hne]%treeReferenceFromString_wellFormed.
  split_and!; [|done..]. destruct (TreeLocation ref); [done|simpl; lia].
Qed.

Lemma parsed_reference_shape_witness :
  treeReferenceFromString "Breast;A01.236" = Ok (mkTreeReference "Breast" ["A01"; "236"])
  ∧ (0 < length ["A01"; "236"])%nat
  ∧ freeOf semicolon "Breast"
  ∧ Forall (freeOf semicolon) ["A01"; "236"]
  ∧ Forall (freeOf dot) ["A01"; "236"].
Proof.
  split; [reflexivity|].
  apply (parsed_reference_shape "Breast;A01.236" (mkTreeReference "Breast" ["A01"; "236"])).
  reflexivity.
Defined.

(** Writing a reference as [Reference] does, heading, [;], segments joined by
    [.], and parsing the line gives the reference back, provided the heading
    holds no [;] and there is at least one segment, none with [;] or [.]; and
    two lines that parse to the same reference are the same line. *)
Theorem format_then_parse (heading : string) (path : list string) :
  freeOf semicolon heading → path ≠ [] →
  Forall (freeOf semicolon) path → Forall (freeOf dot) path →
  treeReferenceFromString (heading +:+ ";" +:+ Join path ".")
  = Ok (mkTreeReference heading path)
  ∧ ∀ text, treeReferenceFromString text = Ok (mkTreeReference heading path) →
            text = heading +:+ ";" +:+ Join path ".".
Proof.
  intros Hh Hne Hsemi Hdot. split; [by apply treeReferenceFromString_rebuilt|].
  intros text (h & p & Hsplit & Heq)%treeReferenceFromString_Ok.
  injection Heq as -> ->.
  replace (Join (Split p dot) ".") with p by (symmetry; apply (Join_Split dot p)).
  pose proof (Join_Split semicolon text) as Ht. rewrite Hsplit in Ht.
  symmetry. exact Ht.
Qed.

Lemma format_then_parse_witness :
  freeOf semicolon "Breast" ∧ ["A01"; "236"] ≠ []
  ∧ Forall (freeOf semicolon) ["A01"; "236"] ∧ Forall (freeOf dot) ["A01"; "236"]
  ∧ treeReferenceFromString ("Breast" +:+ ";" +:+ Join ["A01"; "236"] ".")
    = Ok (mkTreeReference "Breast" ["A01"; "236"])
  ∧ ∀ text, treeReferenceFromString text = Ok (mkTreeReference "Breast" ["A01"; "236"]) →
            text = "Breast" +:+ ";" +:+ Join ["A01"; "236"] ".".
Proof.
  assert (freeOf semicolon "Breast") as H1 by reflexivity.
  assert (["A01"; "236"] ≠ []) as H2 by discriminate.
  assert (Forall (freeOf semicolon) ["A01"; "236"]) as H3
    by (repeat constructor).
  assert (Forall (freeOf dot) ["A01"; "236"]) as H4 by (repeat constructor).
  split_and!; [done..| |]; apply (format_then_parse "Breast" ["A01"; "236"] H1 H2 H3 H4).
Defined.

(** ** Contains, and the queries on an unknown term *)

(** In a built index, [Contains] holds of a term exactly when the heading of
    some line equals the term up to case. *)
Theorem Contains_some_line (reader : Reader) (t : MeSHTree) (term : string) :
  MeSHTreeFromReader reader = Ok t →
  Contains t term = true ↔
  ∃ ref, ref ∈ parsedLines (lines reader)
         ∧ ToLower (MedicalSubjectHeading ref) = ToLower term.
Proof.
  intros Hbuilt. unfold Contains. rewrite (built_Locations _ _ Hbuilt).
  unfold recorded.
  destruct (recordedPaths (parsedLines (lines reader)) (ToLower term)) as [|p ps] eqn:E.
  - split; [done|]. intros (ref & Hin & Hh).
    assert (TreeLocation ref ∈ recordedPaths (parsedLines (lines reader)) (ToLower term))
      as Hp by (apply elem_of_recordedPaths; eauto).
    rewrite E in Hp. by apply elem_of_nil in Hp.
  - split; [intros _|done].
    assert (p ∈ recordedPaths (parsedLines (lines reader)) (ToLower term)) as Hp
      by (rewrite E; apply elem_of_cons; by left).
    apply elem_of_recordedPaths in Hp as (ref & Hin & Hh & _). eauto.
Qed.

Lemma Contains_some_line_witness :
  MeSHTreeFromReader scenario = Ok scenarioTree
  ∧ (Contains scenarioTree "b" = true ↔
     ∃ ref, ref ∈ parsedLines (lines scenario)
            ∧ ToLower (MedicalSubjectHeading ref) = ToLower "b").
Proof.
  split; [vm_compute; reflexivity|].
  apply (Contains_some_line scenario scenarioTree "b"). vm_compute; reflexivity.
Defined.

(** In a built index, a term that is contained has a depth of at least one,
    and a term that is not has depth 0, explodes to nothing, has no parents
    and no references: no query fails on an unknown term. *)
Theorem unknown_term_queries (reader : Reader) (t : MeSHTree) (term : string) :
  MeSHTreeFromReader reader = Ok t →
  (Contains t term = true ↔ (1 ≤ MeSHDepth t term)%Z)
  ∧ (Contains t term = false →
     MeSHDepth t term = 0 ∧ Explode t term = [] ∧ Parents t term = Ok []
     ∧ MeSHReference t term = Ok []).
Proof.
  intros Hbuilt. unfold Contains, MeSHDepth, Explode, Parents, MeSHReference.
  destruct (Locations t !! ToLower term) as [ps|] eqn:Hkey; [|split; [split|]; done].
  split; [|done].
  destruct (built_Locations_wellFormed _ _ _ _ Hbuilt Hkey) as [Hall Hne].
  destruct ps as [|p ps]; [done|]. split; [intros _|done].
  inversion_clear Hall as [|? ? (ref & Hwf & _ & <-) _].
  destruct Hwf as [_ _ _ Hnil]. destruct (TreeLocation ref); [done|]. simpl. lia.
Qed.

Lemma unknown_term_queries_witness :
  MeSHTreeFromReader scenario = Ok scenarioTree
  ∧ (Contains scenarioTree "D" = true ↔ (1 ≤ MeSHDepth scenarioTree "D")%Z)
  ∧ (Contains scenarioTree "D" = false →
     MeSHDepth scenarioTree "D" = 0 ∧ Explode scenarioTree "D" = []
     ∧ Parents scenarioTree "D" = Ok [] ∧ MeSHReference scenarioTree "D" = Ok []).
Proof.
  split; [vm_compute; reflexivity|].
  apply (unknown_term_queries scenario scenarioTree "D"). vm_compute; reflexivity.
Defined.

(** ** Walking the tree *)

Lemma At_empty (location : list string) : At ∅ location = ∅.
Proof. destruct location; simpl; [done|]. by rewrite lookup_empty. Qed.

(** [At] composes: walking a location in two stretches is walking it whole;
    and a walk that has left the tree stays in the empty tree. *)
Theorem At_app (t : tree) (p q : list string) :
  At t (p ++ q) = At (At t p) q ∧ At ∅ q = ∅.
Proof.
  split; [|apply At_empty].
  revert t. induction p as [|s p IH]; intros t; simpl; [done|].
  destruct (t !! s); [apply IH|by rewrite At_empty].
Qed.

(** The headings below a deeper location are among those below a shallower
    one; so when every location of a term [b] extends a location of
    a term [a], everything [Explode] returns for [b] it returns for [a]. *)
Theorem Explode_monotone (t : MeSHTree) (a b : string) (pas pbs : list (list string)) :
  Locations t !! ToLower a = Some pas →
  Locations t !! ToLower b = Some pbs →
  Forall (fun pb => ∃ pa, pa ∈ pas ∧ pa `prefix_of` pb) pbs →
  ∀ h, h ∈ Explode t b → h ∈ Explode t a.
Proof.
  intros Ha Hb Hall h. unfold Explode. rewrite Ha, Hb, !foldl_app_join. simpl.
  rewrite !list_elem_of_join.
  intros (l & Hh & (pb & -> & Hpb)%list_elem_of_fmap).
  rewrite Forall_forall in Hall. destruct (Hall pb Hpb) as (pa & Hpa & [q ->]).
  exists (Terms (At (Tree t) pa)). split; [|apply list_elem_of_fmap; eauto].
  apply elem_of_Terms_At in Hh as (q' & n & Hq' & Hat & Hhead).
  apply elem_of_Terms_At. exists (q ++ q'), n.
  split_and!; [by destruct q, q'| by rewrite app_assoc|done].
Qed.

Lemma Explode_monotone_witness :
  Locations scenarioTree !! ToLower "A" = Some [["1"]]
  ∧ Locations scenarioTree !! ToLower "B" = Some [["1"; "1"]]
  ∧ Forall (fun pb => ∃ pa, pa ∈ [["1"]] ∧ pa `prefix_of` pb) [["1"; "1"]]
  ∧ ∀ h, h ∈ Explode scenarioTree "B" → h ∈ Explode scenarioTree "A".
Proof.
  assert (Locations scenarioTree !! ToLower "A" = Some [["1"]]) as Ha
    by (vm_compute; reflexivity).
  assert (Locations scenarioTree !! ToLower "B" = Some [["1"; "1"]]) as Hb
    by (vm_compute; reflexivity).
  assert (Forall (fun pb => ∃ pa, pa ∈ [["1"]] ∧ pa `prefix_of` pb) [["1"; "1"]]) as Hall.
  { repeat constructor. exists ["1"]. split; [by apply list_elem_of_singleton|].
    by exists ["1"]. }
  split_and!; [done..|].
  exact (Explode_monotone scenarioTree "A" "B" [["1"]] [["1"; "1"]] Ha Hb Hall).
Defined.

(** ** The comparison of locations in [Parents] *)

(** The comparison answers [true] when [loc] is a prefix of the stored
    location, reads past the end of the stored location, and panics, when the
    stored location is a proper prefix of [loc], and answers [false] when the
    two differ at an index that both have. *)
Theorem sameLocation_outcomes (loc stored : list string) :
  sameLocation 0 loc stored
  = if decide (loc `prefix_of` stored) then Ok true
    else if decide (stored `prefix_of` loc) then Panic indexOutOfRange
    else Ok false.
Proof.
  enough (∀ i, sameLocation i loc stored
               = if decide (loc `prefix_of` drop i stored) then Ok true
                 else if decide (drop i stored `prefix_of` loc)
                      then Panic indexOutOfRange
                      else Ok false) as Hgen
    by (specialize (Hgen 0%nat); by rewrite drop_0 in Hgen).
  induction loc as [|v rest IH]; intros i.
  - simpl sameLocation. by rewrite decide_True by apply prefix_nil.
  - simpl sameLocation. destruct (stored !! i) as [w|] eqn:Hw.
    + rewrite (drop_S _ _ _ Hw). destruct (decide (v ≠ w)) as [Hne|Heq].
      * rewrite decide_False by (by intros ?%prefix_cons_inv_1).
        rewrite decide_False; [done|]. by intros ?%prefix_cons_inv_1.
      * apply dec_stable in Heq as ->. rewrite IH.
        repeat case_decide; try done;
          match goal with
          | H : ¬ _ |- _ => destruct H; (by apply prefix_cons) || (by eapply prefix_cons_inv_2)
          end.
    + apply lookup_ge_None in Hw. rewrite drop_ge by done.
      rewrite decide_False by apply prefix_nil_not.
      by rewrite decide_True by apply prefix_nil.
Qed.

(** ** The outcomes of the loader *)

Lemma addChild_Panic_msg (location : list string) (n : Node) (ref : TreeReference)
    (depth : Z) (msg : string) :
  addChild n location ref depth = Panic msg → msg = indexOutOfRange.
Proof.
  revert n depth. induction location as [|s rest IH]; intros n depth; simpl.
  - by intros [= <-].
  - destruct (Children n !! s) as [innerNode|]; [|done].
    specialize (IH innerNode (int64 (depth + 1))).
    destruct (addChild innerNode rest ref (int64 (depth + 1))); [done..|].
    intros [= <-]. by apply IH.
Qed.

Lemma addReference_Panic_msg (t : MeSHTree) (ref : TreeReference) (msg : string) :
  addReference t ref = Panic msg → msg = indexOutOfRange.
Proof.
  unfold addReference. destruct (TreeLocation ref) as [|s0 rest]; [by intros [= <-]|].
  destruct (Tree t !! s0) as [n|]; [|done].
  pose proof (addChild_Panic_msg rest n ref 0) as Hmsg.
  destruct (addChild n rest ref 0); [done..|]. intros [= <-]. by apply Hmsg.
Qed.

(** A scan that does not end well stopped at some line, after the lines
    before it were read well. *)
Lemma scanLines_stops (ls : list string) (t : MeSHTree) :
  (∃ t', scanLines t ls = Ok t')
  ∨ ∃ pre text post t', ls = pre ++ text :: post ∧ scanLines t pre = Ok t'
      ∧ scanLines t ls = scanLines t' [text]
      ∧ ∀ t'', scanLines t' [text] ≠ Ok t''.
Proof.
  revert t. induction ls as [|text rest IH]; intros t; [left; by exists t|].
  destruct (scanLines t [text]) as [t1|e|msg] eqn:Hone.
  - assert (scanLines t (text :: rest) = scanLines t1 rest) as Hcons.
    { simpl in *. destruct (treeReferenceFromString text); [|done..].
      destruct (addReference t a); [|done..]. by injection Hone as ->. }
    destruct (IH t1) as [[t' Ht']|(pre & bad & post & t' & -> & Hpre & Hbad & Hno)].
    + left. exists t'. by rewrite Hcons.
    + right. exists (text :: pre), bad, post, t'. split_and!; [done| |by rewrite Hcons|done].
      change (text :: pre) with ([text] ++ pre). by rewrite scanLines_app, Hone.
  - right. exists [], text, rest, t. split_and!; [done..| |by rewrite Hone].
    simpl in *. destruct (treeReferenceFromString text); [|done..].
    by destruct (addReference t a).
  - right. exists [], text, rest, t. split_and!; [done..| |by rewrite Hone].
    simpl in *. destruct (treeReferenceFromString text); [|done..].
    by destruct (addReference t a).
Qed.

Lemma scanLines_one (t : MeSHTree) (text : string) :
  scanLines t [text]
  = match treeReferenceFromString text with
    | Ok ref => addReference t ref
    | Err e => Err e
    | Panic msg => Panic msg
    end.
Proof.
  simpl. destruct (treeReferenceFromString text); [|done..].
  by destruct (addReference t a).
Qed.

(** The loader panics exactly when it reaches a well-formed line whose
    location already resolves to a node of the tree built from the lines
    before it; the panic is the index out of range of [addChild]. *)
Theorem MeSHTreeFromReader_panics (reader : Reader) (msg : string) :
  MeSHTreeFromReader reader = Panic msg ↔
  msg = indexOutOfRange
  ∧ ∃ pre text post t' ref,
      lines reader = pre ++ text :: post
      ∧ scanLines emptyMeSHTree pre = Ok t'
      ∧ treeReferenceFromString text = Ok ref
      ∧ is_Some (nodeAt (Tree t') (TreeLocation ref)).
Proof.
  unfold MeSHTreeFromReader. split.
  - intros Hpanic.
    destruct (scanLines_stops (lines reader) emptyMeSHTree)
      as [[t' Ht']|(pre & text & post & t' & Hlines & Hpre & Hstop & _)].
    { rewrite Ht' in Hpanic. by destruct (scanErr reader). }
    rewrite Hstop, scanLines_one in Hpanic.
    destruct (treeReferenceFromString text) as [ref|e|m] eqn:Hparse;
      [|done|by apply treeReferenceFromString_no_panic in Hparse].
    destruct (addReference t' ref) as [t''|e|m] eqn:Hadd;
      [by destruct (scanErr reader)|done|].
    injection Hpanic as ->. pose proof (addReference_Panic_msg _ _ _ Hadd) as ->.
    split; [done|]. exists pre, text, post, t', ref. split_and!; [done..|].
    apply addReference_Panic in Hadd as [Hnil|Hsome]; [|done].
    by apply treeReferenceFromString_wellFormed in Hparse as [_ _ _ ?].
  - intros (-> & pre & text & post & t' & ref & -> & Hpre & Hparse & Hsome).
    by rewrite (scanLines_resolved_location_panics pre post text _ t' ref).
Qed.

(** The loader returns an error exactly when it reaches a line that does not
    split in two parts on [;], and then the error names that line, or when it
    reads every line well and the scanner reports an error of its own, which
    is returned as it is. *)
Theorem MeSHTreeFromReader_errors (reader : Reader) (e : error) :
  MeSHTreeFromReader reader = Err e ↔
  (∃ pre text post t',
     lines reader = pre ++ text :: post
     ∧ scanLines emptyMeSHTree pre = Ok t'
     ∧ length (Split text semicolon) ≠ 2%nat
     ∧ e = "malformed tree reference " +:+ text)
  ∨ (∃ t, scanLines emptyMeSHTree (lines reader) = Ok t ∧ scanErr reader = Some e).
Proof.
  unfold MeSHTreeFromReader. split.
  - intros Herr.
    destruct (scanLines_stops (lines reader) emptyMeSHTree)
      as [[t' Ht']|(pre & text & post & t' & Hlines & Hpre & Hstop & Hno)].
    { right. exists t'. split; [done|]. rewrite Ht' in Herr.
      destruct (scanErr reader); [by injection Herr as ->|done]. }
    left. rewrite Hstop in Herr. rewrite scanLines_one in Herr, Hno.
    destruct (treeReferenceFromString text) as [ref|e'|m] eqn:Hparse; [|..|done].
    + destruct (addReference t' ref) as [t''|e'|m] eqn:Hadd; [| |done].
      * by destruct (Hno t'').
      * by apply addReference_not_Err in Hadd.
    + injection Herr as ->. apply treeReferenceFromString_Err in Hparse as [Hbad ->].
      exists pre, text, post, t'. done.
  - intros [(pre & text & post & t' & -> & Hpre & Hbad & ->)|(t & -> & ->)]; [|done].
    by rewrite (scanLines_malformed pre post text _ t').
Qed.

(** ** What the loader keeps *)

Lemma scanLines_snoc_Ok (ls : list string) (text : string) (t t' : MeSHTree) :
  scanLines t (ls ++ [text]) = Ok t' →
  ∃ t1 ref, scanLines t ls = Ok t1 ∧ treeReferenceFromString text = Ok ref
            ∧ addReference t1 ref = Ok t'.
Proof.
  rewrite scanLines_app. destruct (scanLines t ls) as [t1| |]; [|done..].
  rewrite scanLines_one.
  destruct (treeReferenceFromString text) as [ref| |]; [|done..]. eauto.
Qed.

(** The index only grows while the lines are read: a node that a path
    resolves to at some point of the scan is still what the path resolves to
    at the end, with its reference and its depth ("first write wins"), and the
    locations filed under a key are only added to, at the end. *)
Theorem scanLines_append_only (ls : list string) (t t' : MeSHTree) :
  scanLines t ls = Ok t' →
  (∀ q m, nodeAt (Tree t) q = Some m →
     ∃ m', nodeAt (Tree t') q = Some m' ∧ Reference m' = Reference m ∧ Depth m' = Depth m)
  ∧ (∀ key ps, Locations t !! key = Some ps →
       ∃ more, Locations t' !! key = Some (ps ++ more)).
Proof.
  revert t'. induction ls as [|text ls IH] using rev_ind; intros t'.
  - intros [= <-]. split; [eauto|]. intros key ps ->. exists []. by rewrite app_nil_r.
  - intros (t1 & ref & Hscan & _ & Hadd)%scanLines_snoc_Ok.
    destruct (IH _ Hscan) as [Hnodes Hkeys]. split.
    + intros q m Hm. destruct (Hnodes _ _ Hm) as (m1 & Hm1 & <- & <-).
      by apply (addReference_keeps_nodes _ _ _ Hadd).
    + intros key ps Hps. destruct (Hkeys _ _ Hps) as [more Hmore].
      apply addReference_Ok in Hadd as [_ ->].
      destruct (decide (ToLower (MedicalSubjectHeading ref) = key)) as [->|Hne].
      * rewrite lookup_insert_eq, Hmore. simpl.
        exists (more ++ [TreeLocation ref]). by rewrite app_assoc.
      * rewrite lookup_insert_ne by done. eauto.
Qed.

Lemma scanLines_append_only_witness :
  scanLines scenarioTree ["D;1.2"; "d;2"] = Ok scenarioMore
  ∧ (∀ q m, nodeAt (Tree scenarioTree) q = Some m →
       ∃ m', nodeAt (Tree scenarioMore) q = Some m'
             ∧ Reference m' = Reference m ∧ Depth m' = Depth m)
  ∧ (∀ key ps, Locations scenarioTree !! key = Some ps →
       ∃ more, Locations scenarioMore !! key = Some (ps ++ more)).
Proof.
  split; [vm_compute; reflexivity|].
  apply (scanLines_append_only ["D;1.2"; "d;2"] scenarioTree). vm_compute; reflexivity.
Defined.

(** Every node of a built tree holds the reference of one of the lines, and
    the location of that reference begins with the path that leads to the
    node. *)
Theorem built_nodes_hold_lines (reader : Reader) (t : MeSHTree) :
  MeSHTreeFromReader reader = Ok t →
  ∀ q n, nodeAt (Tree t) q = Some n →
    Reference n ∈ parsedLines (lines reader)
    ∧ q `prefix_of` TreeLocation (Reference n).
Proof.
  intros Hbuilt q n Hn. split; [|by apply (built_storesPrefix _ _ Hbuilt)].
  revert q n Hn.
  apply (built_ind (fun t refs => ∀ q n, nodeAt (Tree t) q = Some n → Reference n ∈ refs))
    with (reader := reader); [|clear|done].
  { intros q n. by rewrite nodeAt_empty. }
  intros t0 refs ref t' IH _ [Hgraft _]%addReference_Ok q n' Hat.
  apply elem_of_app.
  destruct (grafted_origin _ _ _ _ Hgraft _ _ Hat) as [(m & Hm & <-)|(-> & _ & _)].
  - left. by eapply IH.
  - right. by apply list_elem_of_singleton.
Qed.

Lemma built_nodes_hold_lines_witness :
  MeSHTreeFromReader scenario = Ok scenarioTree
  ∧ ∀ q n, nodeAt (Tree scenarioTree) q = Some n →
      Reference n ∈ parsedLines (lines scenario)
      ∧ q `prefix_of` TreeLocation (Reference n).
Proof.
  split; [vm_compute; reflexivity|].
  apply (built_nodes_hold_lines scenario scenarioTree). vm_compute; reflexivity.
Defined.

(** ** The depth stored in a node *)

Lemma int64_add_l (a b : Z) : int64 (int64 a + b) = int64 (a + b).
Proof.
  unfold int64. f_equal.
  replace ((a + 2 ^ 63) mod 2 ^ 64 - 2 ^ 63 + b + 2 ^ 63)
    with ((a + 2 ^ 63) mod 2 ^ 64 + b) by lia.
  rewrite Zplus_mod_idemp_l. f_equal. lia.
Qed.

Lemma int64_idemp (a : Z) : int64 (int64 a) = int64 a.
Proof. pose proof (int64_add_l a 0) as H. by rewrite !Z.add_0_r in H. Qed.

Lemma depthsFrom_inner (depth : Z) (t : tree) (s : string) (inner : Node) :
  depthsFrom depth t → t !! s = Some inner →
  depthsFrom (int64 (depth + 1)) (Children inner).
Proof.
  intros Hinv Hs q m Hm. assert (q ≠ []) as Hq by (by destruct q).
  rewrite (Hinv (s :: q) m) by (by rewrite nodeAt_cons, Hs).
  replace (int64 (depth + 1) + Z.of_nat (length q) - 1)
    with (int64 (depth + 1) + (Z.of_nat (length q) - 1)) by lia.
  rewrite int64_add_l. f_equal. simpl length. lia.
Qed.

Lemma addChild_depthsFrom (location : list string) (n n' : Node) (ref : TreeReference)
    (depth : Z) :
  int64 depth = depth →
  addChild n location ref depth = Ok n' →
  depthsFrom depth (Children n) → depthsFrom depth (Children n').
Proof.
  revert n n' depth. induction location as [|s rest IH]; intros n n' depth Hrange; [done|].
  simpl. destruct (Children n !! s) as [innerNode|] eqn:Hs.
  - destruct (addChild innerNode rest ref (int64 (depth + 1))) as [inner'| |] eqn:Hadd;
      [|done..].
    intros [= <-] Hinv. simpl.
    pose proof (IH _ _ _ (int64_idemp _) Hadd (depthsFrom_inner _ _ _ _ Hinv Hs)) as Hinner.
    destruct (addChild_Ok _ _ _ _ _ Hadd) as (_ & Hdepth & _).
    intros [|k q] m Hm; [done|]. destruct (decide (s = k)) as [->|Hne].
    + rewrite nodeAt_insert_eq in Hm. destruct q as [|k' q].
      * injection Hm as <-. rewrite Hdepth. apply (Hinv [k]). by rewrite nodeAt_singleton.
      * rewrite (Hinner _ _ Hm).
        replace (int64 (depth + 1) + Z.of_nat (length (k' :: q)) - 1)
          with (int64 (depth + 1) + (Z.of_nat (length (k' :: q)) - 1)) by lia.
        rewrite int64_add_l. f_equal. simpl length. lia.
    + rewrite nodeAt_insert_ne in Hm by done. by apply Hinv.
  - intros [= <-] Hinv. simpl. intros [|k q] m Hm; [done|].
    destruct (decide (s = k)) as [->|Hne].
    + rewrite nodeAt_insert_eq in Hm. destruct q as [|k' q].
      * injection Hm as <-. simpl. rewrite <- Hrange at 1. f_equal. lia.
      * simpl in Hm. by rewrite lookup_empty in Hm.
    + rewrite nodeAt_insert_ne in Hm by done. by apply Hinv.
Qed.

(** The [Depth] that a built tree stores in a node is 0 for the nodes of the
    first two levels and grows by one per level from there: it is the number
    of segments of the path to the node, less two. *)
Theorem built_node_depth (reader : Reader) (t : MeSHTree) :
  MeSHTreeFromReader reader = Ok t →
  ∀ q n, nodeAt (Tree t) q = Some n →
    Depth n = int64 (Z.of_nat (length q - 2))
    ∧ (Z.of_nat (length q) < 2 ^ 63 → Depth n = Z.of_nat (length q - 2)).
Proof.
  intros Hbuilt q n Hn.
  assert (Depth n = int64 (Z.of_nat (length q - 2))) as Heq.
  { revert q n Hn.
    apply (built_ind (fun t _ => ∀ q n, nodeAt (Tree t) q = Some n →
                                   Depth n = int64 (Z.of_nat (length q - 2))))
      with (reader := reader); [|clear|done].
    { intros q n. by rewrite nodeAt_empty. }
    intros t0 refs ref t' IH _ Hadd. unfold addReference in Hadd.
    destruct (TreeLocation ref) as [|s0 rest]; [done|].
    destruct (Tree t0 !! s0) as [n0|] eqn:Hs0.
    - destruct (addChild n0 rest ref 0) as [n0'| |] eqn:Hchild; [|done..].
      injection Hadd as <-. simpl.
      destruct (addChild_Ok _ _ _ _ _ Hchild) as (_ & Hdepth & _).
      assert (depthsFrom 0 (Children n0)) as Hinv.
      { intros q m Hm. assert (q ≠ []) as Hq by (by destruct q).
        rewrite (IH (s0 :: q) m) by (by rewrite nodeAt_cons, Hs0).
        f_equal. destruct q; [done|]. simpl length. lia. }
      pose proof (addChild_depthsFrom _ _ _ _ _ eq_refl Hchild Hinv) as Hinv'.
      intros [|k q] m Hm; [done|]. destruct (decide (s0 = k)) as [->|Hne].
      + rewrite nodeAt_insert_eq in Hm. destruct q as [|k' q].
        * injection Hm as <-. rewrite Hdepth. apply (IH [k]). by rewrite nodeAt_singleton.
        * rewrite (Hinv' _ _ Hm). f_equal. simpl length. lia.
      + rewrite nodeAt_insert_ne in Hm by done. by apply IH.
    - injection Hadd as <-. simpl. intros [|k q] m Hm; [done|].
      destruct (decide (s0 = k)) as [->|Hne].
      + rewrite nodeAt_insert_eq in Hm. destruct q as [|k' q].
        * by injection Hm as <-.
        * simpl in Hm. by rewrite lookup_empty in Hm.
      + rewrite nodeAt_insert_ne in Hm by done. by apply IH. }
  split; [done|]. intros Hlen. rewrite Heq. unfold int64.
  rewrite Z.mod_small; lia.
Qed.

Lemma built_node_depth_witness :
  MeSHTreeFromReader scenario = Ok scenarioTree
  ∧ ∀ q n, nodeAt (Tree scenarioTree) q = Some n →
      Depth n = int64 (Z.of_nat (length q - 2))
      ∧ (Z.of_nat (length q) < 2 ^ 63 → Depth n = Z.of_nat (length q - 2)).
Proof.
  split; [vm_compute; reflexivity|].
  apply (built_node_depth scenario scenarioTree). vm_compute; reflexivity.
Defined.

(** ** One node for each line *)

Lemma Terms_insert_fresh (t : tree) (s : string) (x : Node) :
  t !! s = None → Terms (<[s := x]> t) ≡ₚ nodeTerms x ++ Terms t.
Proof.
  intros Hs. rewrite !Terms_concat. by rewrite map_to_list_insert by done.
Qed.

Lemma Terms_insert_over (t : tree) (s : string) (x : Node) :
  Terms (<[s := x]> t) ≡ₚ nodeTerms x ++ Terms (delete s t).
Proof.
  rewrite <- insert_delete_eq. apply Terms_insert_fresh, lookup_delete_eq.
Qed.

Lemma Terms_lookup (t : tree) (s : string) (inner : Node) :
  t !! s = Some inner → Terms t ≡ₚ nodeTerms inner ++ Terms (delete s t).
Proof.
  intros Hs. rewrite <- (insert_id t s inner Hs) at 1. apply Terms_insert_over.
Qed.

(** An insertion adds the heading of the reference to the headings of the
    tree, and nothing else. *)
Lemma grafted_Terms (ref : TreeReference) (location : list string) (t t' : tree) :
  grafted ref location t t' → Terms t' ≡ₚ MedicalSubjectHeading ref :: Terms t.
Proof.
  induction 1 as [s rest t depth Hs|s rest t inner children Hs Hgraft IH].
  - rewrite Terms_insert_fresh by done. rewrite nodeTerms_Terms. simpl.
    by rewrite Terms_empty.
  - rewrite Terms_insert_over, (Terms_lookup t s inner Hs), !nodeTerms_Terms. simpl.
    rewrite IH. simpl. apply perm_swap.
Qed.

(** Walking a built tree whole returns the headings of the lines, each line
    once, in some order: every line that is read makes one node, and that
    node holds its heading. *)
Theorem built_Terms_are_headings (reader : Reader) (t : MeSHTree) :
  MeSHTreeFromReader reader = Ok t →
  Terms (Tree t) ≡ₚ MedicalSubjectHeading <$> parsedLines (lines reader)
  ∧ treeSize (Tree t) = length (lines reader).
Proof.
  intros Hbuilt.
  assert (Terms (Tree t) ≡ₚ MedicalSubjectHeading <$> parsedLines (lines reader)) as Hperm.
  { revert Hbuilt.
    apply (built_ind (fun t refs => Terms (Tree t) ≡ₚ MedicalSubjectHeading <$> refs)).
    { change (Terms ∅ ≡ₚ []). by rewrite Terms_empty. }
    intros t0 refs ref t' IH _ [Hgraft _]%addReference_Ok.
    rewrite (grafted_Terms _ _ _ _ Hgraft), IH, fmap_app. simpl.
    by rewrite <- Permutation_cons_append. }
  split; [done|].
  rewrite <- length_Terms, Hperm, length_fmap.
  apply MeSHTreeFromReader_Ok in Hbuilt as [Hscan _]. clear Hperm.
  revert Hscan. generalize emptyMeSHTree as t0.
  induction (lines reader) as [|text rest IH]; intros t0; [done|].
  rewrite parsedLines_cons. simpl.
  destruct (treeReferenceFromString text) as [ref| |]; [|done..].
  destruct (addReference t0 ref) as [t1| |]; [|done..].
  intros Hscan. simpl. f_equal. by eapply IH.
Qed.

Lemma built_Terms_are_headings_witness :
  MeSHTreeFromReader scenario = Ok scenarioTree
  ∧ Terms (Tree scenarioTree) ≡ₚ MedicalSubjectHeading <$> parsedLines (lines scenario)
  ∧ treeSize (Tree scenarioTree) = length (lines scenario).
Proof.
  split; [vm_compute; reflexivity|].
  apply (built_Terms_are_headings scenario scenarioTree). vm_compute; reflexivity.
Defined.

(** ** Lines that come parents first *)

Lemma prefix_parentPath (q location : list string) :
  q `prefix_of` location → q ≠ location → q `prefix_of` parentPath location.
Proof.
  intros [k ->] Hne. unfold parentPath.
  destruct k as [|x k]; [by rewrite app_nil_r in Hne|].
  rewrite take_app_ge by (rewrite length_app; simpl; lia). by eexists.
Qed.

Lemma parsedLines_app (pre post : list string) :
  parsedLines (pre ++ post) = parsedLines pre ++ parsedLines post.
Proof. unfold parsedLines. by rewrite omap_app. Qed.

Lemma addReference_total (t : MeSHTree) (ref : TreeReference) :
  TreeLocation ref ≠ [] → nodeAt (Tree t) (TreeLocation ref) = None →
  ∃ t', addReference t ref = Ok t'.
Proof.
  intros Hne Hnone. destruct (addReference t ref) as [t'|e|msg] eqn:Hadd; [eauto|..].
  - by apply addReference_not_Err in Hadd.
  - pose proof (addReference_Panic_msg _ _ _ Hadd) as ->.
    apply addReference_Panic in Hadd as [?|[n Hn]]; [done|congruence].
Qed.

Lemma addReference_nodesAreLines (t t' : MeSHTree) (refs : list TreeReference)
    (ref : TreeReference) :
  nodesAreLines (Tree t) refs →
  (length (TreeLocation ref) ≤ 1)%nat
  ∨ parentPath (TreeLocation ref) ∈ TreeLocation <$> refs →
  addReference t ref = Ok t' →
  nodesAreLines (Tree t') (refs ++ [ref]).
Proof.
  intros (Hdistinct & Hlines & Hnodes) Hparent Hadd.
  assert (nodeAt (Tree t) (TreeLocation ref) = None) as Hfresh.
  { destruct (nodeAt (Tree t) (TreeLocation ref)) as [n|] eqn:Hn; [|done].
    assert (addReference t ref = Panic indexOutOfRange) as Hpanic
      by (apply addReference_Panic; right; by rewrite Hn).
    congruence. }
  assert ((length (TreeLocation ref) ≤ 1)%nat
          ∨ is_Some (nodeAt (Tree t) (parentPath (TreeLocation ref)))) as Hparent'.
  { destruct Hparent as [?|(r & Hr & Hin)%list_elem_of_fmap]; [by left|right].
    destruct (Hlines r Hin) as (n & Hn & _). rewrite Hr. eauto. }
  apply addReference_Ok in Hadd as [Hgraft _].
  destruct (grafted_parent _ _ _ _ Hgraft Hparent') as (m' & Hm' & Href).
  split_and!.
  - rewrite fmap_app. apply NoDup_app. split_and!; [done| |apply NoDup_singleton].
    intros p (r & -> & Hin)%list_elem_of_fmap Hp.
    apply list_elem_of_singleton in Hp.
    destruct (Hlines r Hin) as (n & Hn & _). congruence.
  - intros r [Hin| ->%list_elem_of_singleton]%elem_of_app; [|eauto].
    destruct (Hlines r Hin) as (n & Hn & <-).
    destruct (grafted_preserves _ _ _ _ Hgraft _ _ Hn) as (n' & Hn' & Heq & _). eauto.
  - intros q n' Hn'. rewrite elem_of_app.
    destruct (grafted_origin _ _ _ _ Hgraft _ _ Hn') as [(m & Hm & <-)|(-> & Hpre & Hnone)].
    + destruct (Hnodes _ _ Hm). eauto.
    + split; [right; by apply list_elem_of_singleton|].
      destruct (decide (q = TreeLocation ref)) as [->|Hne]; [done|exfalso].
      assert (q ≠ []) as Hq by (intros ->; done).
      pose proof (prefix_parentPath _ _ Hpre Hne) as [r Hr].
      destruct Hparent' as [Hlen|Hsome].
      * destruct Hpre as [k Hk]. rewrite Hk, length_app in Hlen.
        destruct q; [done|]. destruct k; [by rewrite app_nil_r in Hk|]. simpl in Hlen. lia.
      * rewrite Hr in Hsome. apply nodeAt_prefix_is_Some in Hsome as [? ?]; [|done].
        congruence.
Qed.

Lemma built_nodesAreLines (reader : Reader) (t : MeSHTree) :
  MeSHTreeFromReader reader = Ok t →
  parentFirst [] (parsedLines (lines reader)) = true →
  nodesAreLines (Tree t) (parsedLines (lines reader)).
Proof.
  apply (built_ind (fun t refs => parentFirst [] refs = true → nodesAreLines (Tree t) refs)).
  { intros _. split_and!; [constructor| |].
    - intros ref Hin. by apply elem_of_nil in Hin.
    - intros q n. by rewrite nodeAt_empty. }
  intros t0 refs ref t' IH _ Hadd Hfirst.
  apply parentFirst_snoc in Hfirst as [Hfirst Hparent].
  apply (addReference_nodesAreLines t0); [by apply IH| |done].
  destruct Hparent as [?|[Hin|?]]; [by left|by apply elem_of_nil in Hin|by right].
Qed.

(** The loader succeeds on a file that it can be meant for: when the scanner
    reports no error, every line splits in two parts on [;], the lines come
    parents first and no two lines have the same location, an index is
    returned. *)
Theorem MeSHTreeFromReader_succeeds (reader : Reader) :
  scanErr reader = None →
  Forall (fun text => length (Split text semicolon) = 2%nat) (lines reader) →
  parentFirst [] (parsedLines (lines reader)) = true →
  NoDup (TreeLocation <$> parsedLines (lines reader)) →
  ∃ t, MeSHTreeFromReader reader = Ok t.
Proof.
  intros Herr Hwf Hfirst Hdistinct.
  enough (∃ t, scanLines emptyMeSHTree (lines reader) = Ok t) as [t Ht]
    by (exists t; by apply MeSHTreeFromReader_Ok).
  clear Herr. induction (lines reader) as [|text ls IH] using rev_ind; [by eexists|].
  apply Forall_app in Hwf as [Hwf Htext]. inversion_clear Htext as [|? ? Hlen _].
  destruct (treeReferenceFromString text) as [ref|e|msg] eqn:Hparse.
  2: { by apply treeReferenceFromString_Err in Hparse as [? _]. }
  2: { by apply treeReferenceFromString_no_panic in Hparse. }
  assert (parsedLines (ls ++ [text]) = parsedLines ls ++ [ref]) as Hrefs.
  { rewrite parsedLines_app. f_equal. by rewrite parsedLines_cons, Hparse. }
  rewrite Hrefs in Hfirst, Hdistinct.
  apply parentFirst_snoc in Hfirst as [Hfirst Hparent].
  rewrite fmap_app in Hdistinct. apply NoDup_app in Hdistinct as (Hdistinct & Hfresh & _).
  destruct (IH Hwf Hfirst Hdistinct) as [t1 Ht1].
  assert (MeSHTreeFromReader (mkReader ls None) = Ok t1) as Hbuilt
    by (by apply MeSHTreeFromReader_Ok).
  destruct (built_nodesAreLines _ _ Hbuilt Hfirst) as (_ & _ & Hnodes).
  destruct (addReference_total t1 ref) as [t' Ht'].
  - by apply treeReferenceFromString_wellFormed in Hparse as [_ _ _ ?].
  - destruct (nodeAt (Tree t1) (TreeLocation ref)) as [n|] eqn:Hn; [exfalso|done].
    destruct (Hnodes _ _ Hn) as [Hin Hloc].
    apply (Hfresh (TreeLocation ref)); [|by apply list_elem_of_singleton].
    rewrite <- Hloc. by apply list_elem_of_fmap_2.
  - exists t'. by rewrite scanLines_app, Ht1, scanLines_one, Hparse.
Qed.

Lemma MeSHTreeFromReader_succeeds_witness :
  scanErr scenario = None
  ∧ Forall (fun text => length (Split text semicolon) = 2%nat) (lines scenario)
  ∧ parentFirst [] (parsedLines (lines scenario)) = true
  ∧ NoDup (TreeLocation <$> parsedLines (lines scenario))
  ∧ ∃ t, MeSHTreeFromReader scenario = Ok t.
Proof.
  assert (Forall (fun text => length (Split text semicolon) = 2%nat) (lines scenario))
    as Hwf by (repeat constructor).
  assert (NoDup (TreeLocation <$> parsedLines (lines scenario))) as Hdistinct
    by (apply (bool_decide_unpack _); vm_compute; exact I).
  split_and!; [reflexivity|done|reflexivity|done|].
  exact (MeSHTreeFromReader_succeeds scenario eq_refl Hwf eq_refl Hdistinct).
Defined.

(** In an index built from lines that come parents first, the tree is the
    lines: no two lines have the same location, the location of every line
    resolves to a node that holds that line, and every node is reached by the
    location of the line it holds. *)
Theorem built_tree_is_lines (reader : Reader) (t : MeSHTree) :
  MeSHTreeFromReader reader = Ok t →
  parentFirst [] (parsedLines (lines reader)) = true →
  NoDup (TreeLocation <$> parsedLines (lines reader))
  ∧ (∀ ref, ref ∈ parsedLines (lines reader) →
       ∃ n, nodeAt (Tree t) (TreeLocation ref) = Some n ∧ Reference n = ref)
  ∧ (∀ q n, nodeAt (Tree t) q = Some n →
       Reference n ∈ parsedLines (lines reader) ∧ TreeLocation (Reference n) = q).
Proof. apply built_nodesAreLines. Qed.

Lemma built_tree_is_lines_witness :
  MeSHTreeFromReader scenario = Ok scenarioTree
  ∧ parentFirst [] (parsedLines (lines scenario)) = true
  ∧ NoDup (TreeLocation <$> parsedLines (lines scenario))
  ∧ (∀ ref, ref ∈ parsedLines (lines scenario) →
       ∃ n, nodeAt (Tree scenarioTree) (TreeLocation ref) = Some n ∧ Reference n = ref)
  ∧ (∀ q n, nodeAt (Tree scenarioTree) q = Some n →
       Reference n ∈ parsedLines (lines scenario) ∧ TreeLocation (Reference n) = q).
Proof.
  split; [vm_compute; reflexivity|]. split; [vm_compute; reflexivity|].
  apply (built_tree_is_lines scenario scenarioTree); vm_compute; reflexivity.
Defined.

Lemma Explode_join (reader : Reader) (t : MeSHTree) (term : string) :
  MeSHTreeFromReader reader = Ok t →
  Explode t term
  = mjoin ((fun p => Terms (At (Tree t) p))
             <$> recordedPaths (parsedLines (lines reader)) (ToLower term)).
Proof.
  intros Hbuilt. unfold Explode. rewrite (built_Locations _ _ Hbuilt). unfold recorded.
  destruct (recordedPaths (parsedLines (lines reader)) (ToLower term)) as [|p ps] eqn:E;
    [done|].
  by rewrite foldl_app_join.
Qed.

(** In an index built from lines that come parents first, [Explode] of a term
    returns the headings of the lines whose location properly extends the
    location of a line filed under the term, and no other heading. *)
Theorem Explode_lines_beneath (reader : Reader) (t : MeSHTree) (term h : string) :
  MeSHTreeFromReader reader = Ok t →
  parentFirst [] (parsedLines (lines reader)) = true →
  h ∈ Explode t term ↔
  ∃ a d, a ∈ parsedLines (lines reader) ∧ d ∈ parsedLines (lines reader)
         ∧ ToLower (MedicalSubjectHeading a) = ToLower term
         ∧ TreeLocation a `prefix_of` TreeLocation d
         ∧ TreeLocation a ≠ TreeLocation d
         ∧ MedicalSubjectHeading d = h.
Proof.
  intros Hbuilt Hfirst.
  destruct (built_nodesAreLines _ _ Hbuilt Hfirst) as (_ & Hlines & Hnodes).
  rewrite (Explode_join _ _ _ Hbuilt), list_elem_of_join. split.
  - intros (l & Hh & (p & -> & Hp)%list_elem_of_fmap).
    apply elem_of_recordedPaths in Hp as (a & Ha & Hkey & <-).
    apply elem_of_Terms_At in Hh as (q & n & Hq & Hn & Hhead).
    destruct (Hnodes _ _ Hn) as [Hd Hloc].
    exists a, (Reference n). split_and!; [done..| | |done].
    + rewrite Hloc. by exists q.
    + rewrite Hloc. intros Heq. apply Hq.
      apply (app_inv_head (TreeLocation a)). by rewrite app_nil_r.
  - intros (a & d & Ha & Hd & Hkey & [q Hq] & Hne & Hhead).
    exists (Terms (At (Tree t) (TreeLocation a))). split.
    + apply elem_of_Terms_At. destruct (Hlines d Hd) as (n & Hn & Href).
      exists q, n. rewrite <- Hq. split_and!; [|done|by rewrite Href].
      intros ->. by rewrite app_nil_r in Hq.
    + apply list_elem_of_fmap. exists (TreeLocation a). split; [done|].
      apply elem_of_recordedPaths. eauto.
Qed.

Lemma Explode_lines_beneath_witness :
  MeSHTreeFromReader scenario = Ok scenarioTree
  ∧ parentFirst [] (parsedLines (lines scenario)) = true
  ∧ ("C" ∈ Explode scenarioTree "a" ↔
     ∃ a d, a ∈ parsedLines (lines scenario) ∧ d ∈ parsedLines (lines scenario)
            ∧ ToLower (MedicalSubjectHeading a) = ToLower "a"
            ∧ TreeLocation a `prefix_of` TreeLocation d
            ∧ TreeLocation a ≠ TreeLocation d
            ∧ MedicalSubjectHeading d = "C").
Proof.
  split; [vm_compute; reflexivity|]. split; [vm_compute; reflexivity|].
  apply (Explode_lines_beneath scenario scenarioTree "a" "C"); vm_compute; reflexivity.
Defined.

Lemma Parents_parentAbove (reader : Reader) (t : MeSHTree) (term : string) :
  MeSHTreeFromReader reader = Ok t →
  Parents t term
  = Ok (mjoin (parentAbove (Tree t)
                 <$> recordedPaths (parsedLines (lines reader)) (ToLower term))).
Proof.
  intros Hbuilt. pose proof (built_storesPrefix _ _ Hbuilt) as Hinv.
  unfold Parents. rewrite (built_Locations _ _ Hbuilt). unfold recorded.
  destruct (recordedPaths (parsedLines (lines reader)) (ToLower term)) as [|p ps] eqn:E;
    [done|].
  rewrite parentsOf_Ok by done. rewrite app_nil_l. do 2 f_equal.
  apply list_fmap_ext. intros _ q _. by apply selectedParents_parentAbove.
Qed.

Lemma elem_of_parentAbove (t : tree) (p : list string) (h : string) :
  h ∈ parentAbove t p ↔
  (2 < length p)%nat
  ∧ ∃ n, nodeAt t (parentPath p) = Some n ∧ MedicalSubjectHeading (Reference n) = h.
Proof.
  unfold parentAbove. case_decide as Hlen.
  - destruct (nodeAt t (parentPath p)) as [n|]; simpl.
    + rewrite list_elem_of_singleton. split; [intros ->; eauto|].
      by intros (_ & n' & [= <-] & <-).
    + split; [by intros ?%elem_of_nil|]. by intros (_ & n' & ? & _).
  - split; [by intros ?%elem_of_nil|]. by intros [? _].
Qed.

(** In an index built from lines that come parents first, [Parents] of a term
    returns, for the lines filed under the term whose location has more than
    two segments, the heading of the line one segment up, which always
    exists, and no other heading; a line of two segments gets no parent,
    although the line one segment up exists. *)
Theorem Parents_lines_above (reader : Reader) (t : MeSHTree) (term : string) :
  MeSHTreeFromReader reader = Ok t →
  parentFirst [] (parsedLines (lines reader)) = true →
  ∃ parents,
    Parents t term = Ok parents
    ∧ (∀ h, h ∈ parents ↔
         ∃ a b, a ∈ parsedLines (lines reader) ∧ b ∈ parsedLines (lines reader)
                ∧ ToLower (MedicalSubjectHeading a) = ToLower term
                ∧ (2 < length (TreeLocation a))%nat
                ∧ TreeLocation b = parentPath (TreeLocation a)
                ∧ MedicalSubjectHeading b = h)
    ∧ (∀ a, a ∈ parsedLines (lines reader) →
         ToLower (MedicalSubjectHeading a) = ToLower term →
         (2 < length (TreeLocation a))%nat →
         ∃ b, b ∈ parsedLines (lines reader)
              ∧ TreeLocation b = parentPath (TreeLocation a)
              ∧ MedicalSubjectHeading b ∈ parents).
Proof.
  intros Hbuilt Hfirst.
  destruct (built_nodesAreLines _ _ Hbuilt Hfirst) as (_ & Hlines & Hnodes).
  eexists. split; [by apply Parents_parentAbove|].
  assert (∀ h, h ∈ mjoin (parentAbove (Tree t)
                 <$> recordedPaths (parsedLines (lines reader)) (ToLower term)) ↔
         ∃ a b, a ∈ parsedLines (lines reader) ∧ b ∈ parsedLines (lines reader)
                ∧ ToLower (MedicalSubjectHeading a) = ToLower term
                ∧ (2 < length (TreeLocation a))%nat
                ∧ TreeLocation b = parentPath (TreeLocation a)
                ∧ MedicalSubjectHeading b = h) as Hiff.
  { intros h. rewrite list_elem_of_join. split.
    - intros (l & Hh & (p & -> & Hp)%list_elem_of_fmap).
      apply elem_of_recordedPaths in Hp as (a & Ha & Hkey & <-).
      apply elem_of_parentAbove in Hh as (Hlen & n & Hn & Hhead).
      destruct (Hnodes _ _ Hn) as [Hb Hloc]. exists a, (Reference n). done.
    - intros (a & b & Ha & Hb & Hkey & Hlen & Hloc & Hhead).
      exists (parentAbove (Tree t) (TreeLocation a)). split.
      + apply elem_of_parentAbove. split; [done|].
        destruct (Hlines b Hb) as (n & Hn & Href). exists n.
        by rewrite <- Hloc, Href.
      + apply list_elem_of_fmap. exists (TreeLocation a). split; [done|].
        apply elem_of_recordedPaths. eauto. }
  split; [done|]. intros a Ha Hkey Hlen.
  destruct (Hlines a Ha) as (n & Hn & _).
  assert (is_Some (nodeAt (Tree t) (parentPath (TreeLocation a)))) as [m Hm].
  { destruct (prefix_take (TreeLocation a) (length (TreeLocation a) - 1)) as [k Hk].
    fold (parentPath (TreeLocation a)) in Hk.
    apply (nodeAt_prefix_is_Some _ _ k); [|rewrite <- Hk; eauto].
    intros Hnil. apply (f_equal length) in Hnil. unfold parentPath in Hnil.
    rewrite length_take in Hnil. simpl in Hnil. lia. }
  destruct (Hnodes _ _ Hm) as [Hb Hloc]. exists (Reference m). split_and!; [done..|].
  apply Hiff. exists a, (Reference m). done.
Qed.

Lemma Parents_lines_above_witness :
  MeSHTreeFromReader scenario = Ok scenarioTree
  ∧ parentFirst [] (parsedLines (lines scenario)) = true
  ∧ ∃ parents,
      Parents scenarioTree "C" = Ok parents
      ∧ (∀ h, h ∈ parents ↔
           ∃ a b, a ∈ parsedLines (lines scenario) ∧ b ∈ parsedLines (lines scenario)
                  ∧ ToLower (MedicalSubjectHeading a) = ToLower "C"
                  ∧ (2 < length (TreeLocation a))%nat
                  ∧ TreeLocation b = parentPath (TreeLocation a)
                  ∧ MedicalSubjectHeading b = h)
      ∧ (∀ a, a ∈ parsedLines (lines scenario) →
           ToLower (MedicalSubjectHeading a) = ToLower "C" →
           (2 < length (TreeLocation a))%nat →
           ∃ b, b ∈ parsedLines (lines scenario)
                ∧ TreeLocation b = parentPath (TreeLocation a)
                ∧ MedicalSubjectHeading b ∈ parents).
Proof.
  split; [vm_compute; reflexivity|]. split; [vm_compute; reflexivity|].
  apply (Parents_lines_above scenario scenarioTree "C"); vm_compute; reflexivity.
Defined.

(** ** What the queries return is in the index *)

Lemma Contains_heading (reader : Reader) (t : MeSHTree) (ref : TreeReference) :
  MeSHTreeFromReader reader = Ok t →
  ref ∈ parsedLines (lines reader) →
  Contains t (MedicalSubjectHeading ref) = true.
Proof.
  intros Hbuilt Hin. unfold Contains. rewrite (built_Locations _ _ Hbuilt).
  unfold recorded.
  destruct (recordedPaths (parsedLines (lines reader))
              (ToLower (MedicalSubjectHeading ref))) as [|p ps] eqn:E; [|done].
  assert (TreeLocation ref ∈ recordedPaths (parsedLines (lines reader))
                               (ToLower (MedicalSubjectHeading ref))) as Hp
    by (apply elem_of_recordedPaths; eauto).
  rewrite E in Hp. by apply elem_of_nil in Hp.
Qed.

Lemma built_node_heading_contained (reader : Reader) (t : MeSHTree)
    (q : list string) (n : Node) :
  MeSHTreeFromReader reader = Ok t →
  nodeAt (Tree t) q = Some n →
  Contains t (MedicalSubjectHeading (Reference n)) = true.
Proof.
  intros Hbuilt Hn. apply (Contains_heading reader); [done|].
  revert q n Hn.
  apply (built_ind (fun t refs => ∀ q n, nodeAt (Tree t) q = Some n → Reference n ∈ refs))
    with (reader := reader); [|clear|done].
  { intros q n. by rewrite nodeAt_empty. }
  intros t0 refs ref t' IH _ [Hgraft _]%addReference_Ok q n' Hat.
  apply elem_of_app.
  destruct (grafted_origin _ _ _ _ Hgraft _ _ Hat) as [(m & Hm & <-)|(-> & _ & _)].
  - left. by eapply IH.
  - right. by apply list_elem_of_singleton.
Qed.

(** In a built index, every heading that [Explode] or [Parents] returns, for
    any term, is a term that [Contains] accepts: the results can be queried
    in turn. *)
Theorem query_results_contained (reader : Reader) (t : MeSHTree) (term h : string) :
  MeSHTreeFromReader reader = Ok t →
  (h ∈ Explode t term → Contains t h = true)
  ∧ (∀ parents, Parents t term = Ok parents → h ∈ parents → Contains t h = true).
Proof.
  intros Hbuilt. split.
  - rewrite (Explode_join _ _ _ Hbuilt), list_elem_of_join.
    intros (l & Hh & (p & -> & _)%list_elem_of_fmap).
    apply elem_of_Terms_At in Hh as (q & n & _ & Hn & <-).
    by eapply built_node_heading_contained.
  - intros parents. rewrite (Parents_parentAbove _ _ _ Hbuilt). intros [= <-].
    rewrite list_elem_of_join. intros (l & Hh & (p & -> & _)%list_elem_of_fmap).
    apply elem_of_parentAbove in Hh as (_ & n & Hn & <-).
    by eapply built_node_heading_contained.
Qed.

Lemma query_results_contained_witness :
  MeSHTreeFromReader scenario = Ok scenarioTree
  ∧ ("C" ∈ Explode scenarioTree "A" → Contains scenarioTree "C" = true)
  ∧ (∀ parents, Parents scenarioTree "A" = Ok parents → "C" ∈ parents →
       Contains scenarioTree "C" = true).
Proof.
  split; [vm_compute; reflexivity|].
  apply (query_results_contained scenario scenarioTree "A" "C"). vm_compute; reflexivity.
Defined.
